(** * EdgePartition2D: the 2D edge-partitioning functions of the notebook

    A shallow embedding of the Python functions of [EdgePartition2D.ipynb]:
    [old2d] (the current GraphX algorithm), [new2d] (the proposed one), the
    sampler [rand_vid] and [get_counts] and the patch loop of [visualize];
    and of the Scala "Improved" [getPartition] of the notebook's first cell,
    with the arithmetic of the JVM.

    The notebook computes on [numpy.int64] values "to match Java's overflow
    behavior" and silences numpy's warnings with [np.seterr(all='ignore')].
    Every arithmetic operation that has an [np.int64] operand is therefore
    written here with its two's-complement wrap-around, and integer division
    and remainder by zero yield 0 as numpy's do.  A Python int that meets an
    [np.int64] operand is converted to [np.int64] first, which raises
    [OverflowError] when it does not fit. *)

From stdpp Require Import base numbers list gmap sets.
From Stdlib Require Import ZArith Lia.

Local Open Scope Z_scope.

(** ** Python outcomes: a value or a raised exception *)

Inductive exn : Type :=
  | ValueError      (* math.sqrt of a negative number: "math domain error" *)
  | OverflowError   (* an int too large for np.int64, or for a double *)
  | ArithmeticException.  (* JVM: integer division or remainder by zero *)

Inductive result (A : Type) : Type :=
  | Ok (a : A)
  | Raise (e : exn).

Arguments Ok {A} a.
Arguments Raise {A} e.

Definition bind {A B : Type} (r : result A) (k : A -> result B) : result B :=
  match r with
  | Ok a => k a
  | Raise e => Raise e
  end.

Notation "x <- r ;; k" := (bind r (fun x => k))
  (at level 100, r at next level, right associativity).

Definition is_Ok {A : Type} (r : result A) : bool :=
  match r with Ok _ => true | Raise _ => false end.

(** ** numpy.int64 arithmetic *)

Module I64.

Definition min_signed : Z := - 2 ^ 63.
Definition max_signed : Z := 2 ^ 63 - 1.

Definition in_range (z : Z) : Prop := min_signed <= z <= max_signed.

Definition in_rangeb (z : Z) : bool :=
  (min_signed <=? z) && (z <=? max_signed).

(** Two's-complement reduction of a mathematical integer to 64 bits. *)
Definition wrap (z : Z) : Z := (z + 2 ^ 63) mod 2 ^ 64 - 2 ^ 63.

Definition add (a b : Z) : Z := wrap (a + b).
Definition sub (a b : Z) : Z := wrap (a - b).
Definition mul (a b : Z) : Z := wrap (a * b).

(** [abs] of the minimum value wraps to the minimum value itself. *)
Definition abs (a : Z) : Z := wrap (Z.abs a).

(** [%] is floored (the result has the sign of the divisor); with a zero
    divisor numpy sets its divide flag, ignored here, and yields 0. *)
Definition rem (a b : Z) : Z := if b =? 0 then 0 else a mod b.

(** [//] is floored division, 0 for a zero divisor. *)
Definition floordiv (a b : Z) : Z := if b =? 0 then 0 else wrap (a / b).

End I64.

(** [np.int64(x)] of a Python int. *)
Definition np_int64 (x : Z) : result Z :=
  if I64.in_rangeb x then Ok x else Raise OverflowError.

(** ** [math.ceil(math.sqrt(numParts))]

    The source takes the square root in double precision: [math.sqrt]
    converts its argument to a double, takes the correctly rounded square
    root, and [math.ceil] rounds that up.  The doubles that occur are
    integers or lie between two consecutive integers, so the computation is
    written on [Z].

    Below [2 ^ 52] the result is the exact integer ceiling [ceil_sqrt] of
    the square root ([ceil_sqrt_double_exact] below); from there on it is
    that or one less ([cols_choice] below).  [valid_numParts] is the range
    in which it is exact. *)

Definition maxNumParts : Z := 2 ^ 52 - 1.

Definition valid_numParts (numParts : Z) : Prop :=
  1 <= numParts <= maxNumParts.

Definition ceil_sqrt (n : Z) : Z :=
  let s := Z.sqrt n in
  if s * s =? n then s else s + 1.

(** The least magnitude of an int that has no double: it would round, to
    nearest even on 53 bits, to [2 ^ 1024]. *)
Definition double_overflow : Z := 2 ^ 1024 - 2 ^ 970.

(** The double nearest to the int [n], for [0 <= n < double_overflow]:
    [n] itself below [2 ^ 53], else [n] rounded to 53 significant bits, ties
    to even. *)
Definition double_of_int (n : Z) : Z :=
  if n <? 2 ^ 53 then n else
  let e := Z.log2 n - 52 in
  let q := n / 2 ^ e in
  let r := n mod 2 ^ e in
  let half := 2 ^ (e - 1) in
  let q' := if r <? half then q
            else if half <? r then q + 1
            else if Z.even q then q else q + 1 in
  q' * 2 ^ e.

(** [math.ceil(math.sqrt(x))] for a double [x] that is a non-negative
    integer.  With [s] the integer square root of [x]: an exact root is
    returned as it is.  Otherwise, when [s < 2 ^ 53], the rounded root lies
    in [[s, s + 1]] and it is [s] just when the root is within half a unit
    in the last place of [s], that is [2 ^ (- t)], above [s].  When
    [s >= 2 ^ 53] the rounded root is itself an integer, the multiple of
    [2 ^ e] nearest to the root. *)
Definition ceil_sqrt_double (x : Z) : Z :=
  let s := Z.sqrt x in
  if s * s =? x then s else
  let l := Z.log2 s in
  if l <? 53 then
    let t := 53 - l in
    if x * (2 ^ t * 2 ^ t) <? (s * 2 ^ t + 1) * (s * 2 ^ t + 1)
    then s else s + 1
  else
    let e := l - 52 in
    let q := s / 2 ^ e in
    let lo := q * 2 ^ e in
    let mid := lo + 2 ^ (e - 1) in
    if x <? mid * mid then lo
    else if mid * mid <? x then lo + 2 ^ e
    else if Z.even q then lo else lo + 2 ^ e.

(** [np.int64(math.ceil(math.sqrt(numParts)))]: [math.sqrt] first converts
    to a double, which raises [OverflowError] for an int out of the range of
    doubles, then raises [ValueError] on a negative argument. *)
Definition math_ceil_sqrt (numParts : Z) : result Z :=
  if (numParts <=? - double_overflow) || (double_overflow <=? numParts)
  then Raise OverflowError
  else if numParts <? 0 then Raise ValueError
  else np_int64 (ceil_sqrt_double (double_of_int numParts)).

Definition mixingPrime : Z := 1125899906842597.

(** ** The two partitioners *)

(** [abs(v * mixingPrime)] on [np.int64]. *)
Definition mix (v : Z) : Z := I64.abs (I64.mul v mixingPrime).

(** [int(...)] of an [np.int64] keeps the value; the product of the Python
    int [col] with an [np.int64] is again an [np.int64].  The Python int
    [numParts] first meets an [np.int64] in the final remainder. *)
Definition old2d (src dst numParts : Z) : result Z :=
  src <- np_int64 src ;;
  dst <- np_int64 dst ;;
  ceilSqrtNumParts <- math_ceil_sqrt numParts ;;
  (* col = int(abs(src * mixingPrime) % ceilSqrtNumParts) *)
  let col := I64.rem (mix src) ceilSqrtNumParts in
  (* row = int(abs(dst * mixingPrime) % ceilSqrtNumParts) *)
  let row := I64.rem (mix dst) ceilSqrtNumParts in
  (* return (col * ceilSqrtNumParts + row) % numParts *)
  numParts <- np_int64 numParts ;;
  Ok (I64.rem (I64.add (I64.mul col ceilSqrtNumParts) row) numParts).

(** The grid geometry of [new2d] (also recomputed by [visualize]):
    [rows = (numParts + cols - 1) // cols] and
    [lastColRows = numParts - rows * (cols - 1)], on [np.int64]. *)
Definition rows_of (numParts cols : Z) : Z :=
  I64.floordiv (I64.sub (I64.add numParts cols) 1) cols.

Definition lastColRows_of (numParts cols rows : Z) : Z :=
  I64.sub numParts (I64.mul rows (I64.sub cols 1)).

(** The Python int [numParts] first meets an [np.int64] in
    [numParts + cols]. *)
Definition new2d (src dst numParts : Z) : result Z :=
  src <- np_int64 src ;;
  dst <- np_int64 dst ;;
  ceilSqrtNumParts <- math_ceil_sqrt numParts ;;
  let cols := ceilSqrtNumParts in
  numParts <- np_int64 numParts ;;
  let rows := rows_of numParts cols in
  let lastColRows := lastColRows_of numParts cols rows in
  (* col = int(abs(src * mixingPrime) % numParts // rows) *)
  let col := I64.floordiv (I64.rem (mix src) numParts) rows in
  (* row = int(abs(dst * mixingPrime)
                 % (rows if (col < cols - 1) else lastColRows)) *)
  let row := I64.rem (mix dst)
               (if col <? I64.sub cols 1 then rows else lastColRows) in
  (* return col * rows + row *)
  Ok (I64.add (I64.mul col rows) row).

(** The locals [rows] and [col] of [new2d], as functions of the arguments
    they are computed from: [rows] of [numParts] alone, [col] of the source
    and [numParts]. *)
Definition new2d_rows (numParts : Z) : result Z :=
  ceilSqrtNumParts <- math_ceil_sqrt numParts ;;
  let cols := ceilSqrtNumParts in
  numParts <- np_int64 numParts ;;
  Ok (rows_of numParts cols).

Definition new2d_col (src numParts : Z) : result Z :=
  src <- np_int64 src ;;
  rows <- new2d_rows numParts ;;
  Ok (I64.floordiv (I64.rem (mix src) numParts) rows).

(** The number of columns for the largest partition counts: the ceiling of
    the square root of [2^63 - 1].  Up to [2^63 - maxCols] the sum
    [numParts + cols - 1] fits in 64 bits. *)
Definition maxCols : Z := 3037000500.

(** ** The Scala [getPartition] of the notebook's proposal

    The "Improved" [getPartition] of the first cell, on the JVM: [VertexId]
    is a 64-bit [Long] and [PartitionID] a 32-bit [Int], both wrapping; [/]
    and [%] truncate towards zero and throw [ArithmeticException] on a zero
    divisor; [math.sqrt] of a negative number is NaN, and NaN converts to
    the [Int] 0. *)
Module JVM.

Definition int_wrap (z : Z) : Z := (z + 2 ^ 31) mod 2 ^ 32 - 2 ^ 31.

Definition iadd (a b : Z) : Z := int_wrap (a + b).
Definition isub (a b : Z) : Z := int_wrap (a - b).
Definition imul (a b : Z) : Z := int_wrap (a * b).

Definition idiv (a b : Z) : result Z :=
  if b =? 0 then Raise ArithmeticException else Ok (int_wrap (Z.quot a b)).

Definition irem (a b : Z) : result Z :=
  if b =? 0 then Raise ArithmeticException else Ok (Z.rem a b).

Definition ldiv (a b : Z) : result Z :=
  if b =? 0 then Raise ArithmeticException else Ok (I64.wrap (Z.quot a b)).

Definition lrem (a b : Z) : result Z :=
  if b =? 0 then Raise ArithmeticException else Ok (Z.rem a b).

(** [Long.toInt] keeps the low 32 bits. *)
Definition toInt (a : Z) : Z := int_wrap a.

(** [math.ceil(math.sqrt(numParts)).toInt] for an [Int]. *)
Definition ceilSqrt (numParts : Z) : Z :=
  if numParts <? 0 then 0 else ceil_sqrt_double (double_of_int numParts).

End JVM.

Definition getPartition (src dst numParts : Z) : result Z :=
  let ceilSqrtNumParts := JVM.ceilSqrt numParts in
  if numParts =? JVM.imul ceilSqrtNumParts ceilSqrtNumParts then
    col <- JVM.lrem (mix src) ceilSqrtNumParts ;;
    let col := JVM.toInt col in
    row <- JVM.lrem (mix dst) ceilSqrtNumParts ;;
    let row := JVM.toInt row in
    JVM.irem (JVM.iadd (JVM.imul col ceilSqrtNumParts) row) numParts
  else
    let cols := ceilSqrtNumParts in
    rows <- JVM.idiv (JVM.isub (JVM.iadd numParts cols) 1) cols ;;
    let lastColRows := JVM.isub numParts (JVM.imul rows (JVM.isub cols 1)) in
    h <- JVM.lrem (mix src) numParts ;;
    q <- JVM.ldiv h rows ;;
    let col := JVM.toInt q in
    row <- JVM.lrem (mix dst)
             (if col <? JVM.isub cols 1 then rows else lastColRows) ;;
    let row := JVM.toInt row in
    Ok (JVM.iadd (JVM.imul col rows) row).

(** ** Columns of the reduced ID space

    [new2d] first reduces the scrambled source ID modulo [numParts] and then
    buckets the residue [h] into column [h // rows].  [colCount] counts the
    residues of [[0, numParts)] that are routed to column [c]. *)
Definition colCount (numParts rows c : Z) : nat :=
  length (filter (fun h => I64.floordiv h rows = c) (seqZ 0 numParts)).

(** ** Replication of a vertex

    The partition indices in which the edges of vertex [v] land under the
    partitioner [f]: the edges [(v, d)] for [d] in [dsts] and the edges
    [(s, v)] for [s] in [srcs]. *)
Definition value {A : Type} (r : result A) : option A :=
  match r with Ok a => Some a | Raise _ => None end.

Definition outEdges (f : Z -> Z -> Z -> result Z) (v numParts : Z)
    (dsts : list Z) : list Z :=
  omap (fun d => value (f v d numParts)) dsts.

Definition inEdges (f : Z -> Z -> Z -> result Z) (v numParts : Z)
    (srcs : list Z) : list Z :=
  omap (fun s => value (f s v numParts)) srcs.

Definition replicas (f : Z -> Z -> Z -> result Z) (v numParts : Z)
    (dsts srcs : list Z) : gset Z :=
  list_to_set (outEdges f v numParts dsts ++ inEdges f v numParts srcs).

(** ** The grid as the design describes it

    The geometry in unbounded integers: [cols] columns of [rows] cells, the
    last column cut down to [lastColRows] cells.  The functions [rows_of] and
    [lastColRows_of] above are what the code computes on [np.int64]; these are
    what they are meant to compute. *)
Definition gridCols (numParts : Z) : Z := ceil_sqrt numParts.

Definition gridRows (numParts : Z) : Z :=
  (numParts + gridCols numParts - 1) / gridCols numParts.

Definition gridLastColRows (numParts : Z) : Z :=
  numParts - gridRows numParts * (gridCols numParts - 1).

(** The height of column [c] of the grid. *)
Definition colHeight (numParts c : Z) : Z :=
  if c <? gridCols numParts - 1 then gridRows numParts
  else gridLastColRows numParts.

(** Column and row of an edge under the new method, in unbounded integers. *)
Definition newCol (src numParts : Z) : Z :=
  (mix src mod numParts) / gridRows numParts.

Definition newRow (dst numParts col : Z) : Z :=
  mix dst mod colHeight numParts col.

(** Column and row of an edge under the old method. *)
Definition oldCol (src numParts : Z) : Z := mix src mod ceil_sqrt numParts.
Definition oldRow (dst numParts : Z) : Z := mix dst mod ceil_sqrt numParts.

Definition perfect_square (numParts : Z) : Prop :=
  ceil_sqrt numParts * ceil_sqrt numParts = numParts.

(** ** Undoing the scramble

    The mixing prime is odd, hence invertible modulo [2 ^ 64].  Its inverse
    is not in the source; it serves to name the vertex ID whose product with
    the mixing prime is a given 64-bit value. *)
Definition mixingPrimeInv : Z := 404865266501297645.

Definition unmix (h : Z) : Z := I64.mul h mixingPrimeInv.

#[global] Instance exn_eq_dec : EqDecision exn.
Proof. solve_decision. Defined.

#[global] Instance result_eq_dec : EqDecision (result Z).
Proof. solve_decision. Defined.

(** ** How many scrambled pairs a partition receives

    [newPairCount numParts p] runs [new2d] on the vertex IDs whose scrambled
    values are [hs] in [[0, numParts)] and [hd] in [[0, rows * lastColRows)],
    one full period of every modulus [new2d] reduces by, and counts the calls
    that return [p].  [oldCellCount numParts p] does the same for [old2d] and
    the scrambled values [[0, ceilSqrt)] by [[0, ceilSqrt)], one full period
    of its modulus. *)
Definition newPairCount (numParts p : Z) : nat :=
  let cols := ceil_sqrt numParts in
  let rows := rows_of numParts cols in
  let lastColRows := lastColRows_of numParts cols rows in
  sum_list_with
    (fun hs => length (filter (fun hd => new2d (unmix hs) (unmix hd) numParts = Ok p)
                              (seqZ 0 (rows * lastColRows))))
    (seqZ 0 numParts).

Definition oldCellCount (numParts p : Z) : nat :=
  let ceilSqrtNumParts := ceil_sqrt numParts in
  sum_list_with
    (fun hs => length (filter (fun hd => old2d (unmix hs) (unmix hd) numParts = Ok p)
                              (seqZ 0 ceilSqrtNumParts)))
    (seqZ 0 ceilSqrtNumParts).

(** ** The sampler: [rand_vid] and [get_counts]

    [random.randint(-2**63, 2**63 - 1)] is [-2**63 + k] for the number [k]
    the generator draws below [2 ** 64].  The generator is a stream
    [draw : nat -> Z] of such numbers, read through a cursor. *)
Definition rand_vid (k : Z) : Z := - 2 ^ 63 + k.

Definition draws_ok (draw : nat -> Z) : Prop :=
  forall i, 0 <= draw i < 2 ^ 64.

(** [cnt[k] += 1] on a [collections.Counter]: a missing key counts as 0. *)
Definition incr (k : Z) (cnt : gmap Z nat) : gmap Z nat :=
  <[k := S (default 0%nat (cnt !! k))]> cnt.

(** [sum(cnt.values())]. *)
Definition total (cnt : gmap Z nat) : nat :=
  map_fold (fun _ v acc => (v + acc)%nat) 0%nat cnt.

Record counters : Type := Counters {
  old_cnt : gmap Z nat;
  new_cnt : gmap Z nat
}.

(** One turn of the loop of [get_counts]: two draws, then one call of each
    partitioner, each tallied in its counter. *)
Definition sample (draw : nat -> Z) (numParts : Z)
    (acc : result (nat * counters)) (x : Z) : result (nat * counters) :=
  st <- acc ;;
  let cursor := fst st in
  let src := rand_vid (draw cursor) in
  let dst := rand_vid (draw (S cursor)) in
  o <- old2d src dst numParts ;;
  n <- new2d src dst numParts ;;
  Ok (S (S cursor),
      Counters (incr o (old_cnt (snd st))) (incr n (new_cnt (snd st)))).

(** [for x in xrange(1, sample_size)] is a loop over [seqZ 1 (sample_size - 1)]. *)
Definition get_counts (draw : nat -> Z) (numParts sample_size : Z)
    : result counters :=
  st <- foldl (sample draw numParts) (Ok (0%nat, Counters ∅ ∅))
          (seqZ 1 (sample_size - 1)) ;;
  Ok (snd st).

(** ** The grid drawn by [visualize]

    Only the patches are modelled, not the figure.  The geometry is computed
    on Python ints here, so nothing wraps and a zero divisor raises.  The
    notebook imports true division: each coordinate of a rectangle is a
    quotient of two ints, kept as its two operands. *)
Module Viz.

Inductive error : Type :=
  | ValueError          (* math.sqrt of a negative number *)
  | OverflowError       (* math.sqrt of an int too large for a double *)
  | ZeroDivisionError.  (* division or modulo by zero *)

Definition bind {A B : Type} (r : error + A) (k : A -> error + B) : error + B :=
  match r with
  | inl e => inl e
  | inr a => k a
  end.

Notation "x <~ r ;; k" := (bind r (fun x => k))
  (at level 100, r at next level, right associativity).

Record frac : Type := Frac { num : Z; den : Z }.

Record rect : Type := Rectangle {
  rx : frac; ry : frac; width : frac; height : frac
}.

Definition floordiv (a b : Z) : error + Z :=
  if b =? 0 then inl ZeroDivisionError else inr (a / b).

Definition modulo (a b : Z) : error + Z :=
  if b =? 0 then inl ZeroDivisionError else inr (a mod b).

Definition truediv (a b : Z) : error + frac :=
  if b =? 0 then inl ZeroDivisionError else inr (Frac a b).

(** [cols], [rows] and [lastColRows] as [visualize] computes them. *)
Definition geometry (numParts : Z) : error + (Z * Z * Z) :=
  if (numParts <=? - double_overflow) || (double_overflow <=? numParts)
  then inl OverflowError else
  if numParts <? 0 then inl ValueError else
  let cols := ceil_sqrt_double (double_of_int numParts) in
  rows <~ floordiv (numParts + cols - 1) cols ;;
  let lastColRows := numParts - rows * (cols - 1) in
  inr (cols, rows, lastColRows).

(** The body of the loop for partition [i]. *)
Definition patch (numParts cols rows lastColRows i : Z) : error + rect :=
  col <~ floordiv i rows ;;
  row <~ modulo i rows ;;
  if col <? cols - 1 then
    x <~ truediv (col * rows) numParts ;;
    y <~ truediv row rows ;;
    w <~ truediv rows numParts ;;
    h <~ truediv 1 rows ;;
    inr (Rectangle x y w h)
  else
    x <~ truediv (col * rows) numParts ;;
    y <~ truediv row lastColRows ;;
    w <~ truediv lastColRows numParts ;;
    h <~ truediv 1 lastColRows ;;
    inr (Rectangle x y w h).

Fixpoint patches_loop (f : Z -> error + rect) (l : list Z) : error + list rect :=
  match l with
  | [] => inr []
  | i :: l' =>
      r <~ f i ;;
      rs <~ patches_loop f l' ;;
      inr (r :: rs)
  end.

(** [for i in xrange(numParts)]. *)
Definition patches (numParts : Z) : error + list rect :=
  g <~ geometry numParts ;;
  let '(cols, rows, lastColRows) := g in
  patches_loop (patch numParts cols rows lastColRows) (seqZ 0 numParts).

End Viz.

(** The rectangle of partition [i] in terms of the grid: column
    [i div rows], row [i mod rows], and the height of that column. *)
Definition cellRect (numParts i : Z) : Viz.rect :=
  let col := i / gridRows numParts in
  let h := colHeight numParts col in
  Viz.Rectangle (Viz.Frac (col * gridRows numParts) numParts)
                (Viz.Frac (i mod gridRows numParts) h)
                (Viz.Frac h numParts)
                (Viz.Frac 1 h).

(** A rectangle, read as exact fractions, lies in the unit square and has
    area [1 / numParts]. *)
Definition tile_ok (numParts : Z) (r : Viz.rect) : Prop :=
  0 < Viz.den (Viz.rx r) /\ 0 < Viz.den (Viz.ry r) /\
  Viz.den (Viz.width r) = Viz.den (Viz.rx r) /\
  Viz.den (Viz.height r) = Viz.den (Viz.ry r) /\
  0 <= Viz.num (Viz.rx r) /\
  Viz.num (Viz.rx r) + Viz.num (Viz.width r) <= Viz.den (Viz.rx r) /\
  0 <= Viz.num (Viz.ry r) /\
  Viz.num (Viz.ry r) + Viz.num (Viz.height r) <= Viz.den (Viz.ry r) /\
  Viz.num (Viz.width r) * Viz.num (Viz.height r) * numParts =
    Viz.den (Viz.width r) * Viz.den (Viz.height r).

(** Closes a goal that a value lies in the 64-bit range. *)
Ltac i64_range :=
  unfold I64.in_range, I64.min_signed, I64.max_signed in *; lia.

(** * Properties *)

(** ** The notebook's scenarios, evaluated *)

Example old2d_0_0_4 : old2d 0 0 4 = Ok 0.
Proof. reflexivity. Qed.

Example old2d_1_0_4 : old2d 1 0 4 = Ok 2.
Proof. reflexivity. Qed.

Example new2d_1_0_4 : new2d 1 0 4 = Ok 0.
Proof. reflexivity. Qed.

Example geometry_10 :
  ceil_sqrt 10 = 4 /\ rows_of 10 4 = 3 /\ lastColRows_of 10 4 3 = 1.
Proof. repeat split. Qed.

Example new2d_sweep_10 :
  forallb (fun d => match new2d 12345 d 10 with
                    | Ok p => (0 <=? p) && (p <=? 9)
                    | Raise _ => false
                    end) (seqZ (-200) 400) = true.
Proof. vm_compute. reflexivity. Qed.

Example np_int64_too_large : old2d (2 ^ 63) 0 4 = Raise OverflowError.
Proof. reflexivity. Qed.

(** ** 64-bit arithmetic *)

Lemma wrap_id z : I64.in_range z -> I64.wrap z = z.
Proof.
  unfold I64.in_range, I64.min_signed, I64.max_signed, I64.wrap.
  intros Hz. rewrite Z.mod_small; lia.
Qed.

Lemma wrap_in_range z : I64.in_range (I64.wrap z).
Proof.
  unfold I64.in_range, I64.min_signed, I64.max_signed, I64.wrap.
  pose proof (Z.mod_pos_bound (z + 2 ^ 63) (2 ^ 64)). lia.
Qed.

Lemma mix_in_range v : I64.in_range (mix v).
Proof. apply wrap_in_range. Qed.

Lemma rem_pos a b : 0 < b -> I64.rem a b = a mod b.
Proof.
  intros Hb. unfold I64.rem.
  destruct (Z.eqb_spec b 0); [lia | reflexivity].
Qed.

Lemma floordiv_small a b :
  0 <= a <= I64.max_signed -> 0 < b -> I64.floordiv a b = a / b.
Proof.
  intros Ha Hb. unfold I64.floordiv.
  destruct (Z.eqb_spec b 0); [lia |].
  apply wrap_id. unfold I64.in_range, I64.min_signed, I64.max_signed in *.
  assert (0 <= a / b) by (apply Z.div_pos; lia).
  assert (a / b <= a) by (apply Z.div_le_upper_bound; nia).
  lia.
Qed.

Lemma np_int64_in_range x : I64.in_range x -> np_int64 x = Ok x.
Proof.
  unfold np_int64, I64.in_rangeb, I64.in_range. intros [H1 H2].
  apply Z.leb_le in H1, H2. by rewrite H1, H2.
Qed.

Lemma np_int64_out_of_range x : ~ I64.in_range x -> np_int64 x = Raise OverflowError.
Proof.
  unfold np_int64, I64.in_rangeb, I64.in_range. intros H.
  destruct (Z.leb_spec I64.min_signed x), (Z.leb_spec x I64.max_signed);
    simpl; try reflexivity; lia.
Qed.

Lemma wrap_add_multiple a k : I64.wrap (a + k * 2 ^ 64) = I64.wrap a.
Proof.
  unfold I64.wrap.
  replace (a + k * 2 ^ 64 + 2 ^ 63) with (a + 2 ^ 63 + k * 2 ^ 64) by lia.
  rewrite Z.mod_add by lia. reflexivity.
Qed.

Lemma wrap_multiple a : exists k, I64.wrap a = a + k * 2 ^ 64.
Proof.
  exists (- ((a + 2 ^ 63) / 2 ^ 64)). unfold I64.wrap.
  pose proof (Z.div_mod (a + 2 ^ 63) (2 ^ 64) ltac:(lia)). lia.
Qed.

Lemma wrap_mul_wrap_l a b : I64.wrap (I64.wrap a * b) = I64.wrap (a * b).
Proof.
  destruct (wrap_multiple a) as (k & ->).
  replace ((a + k * 2 ^ 64) * b) with (a * b + (k * b) * 2 ^ 64) by lia.
  apply wrap_add_multiple.
Qed.

Lemma mul_mul_inverse v a b :
  I64.in_range v -> a * b mod 2 ^ 64 = 1 ->
  I64.mul (I64.mul v a) b = v.
Proof.
  intros Hv Hab. unfold I64.mul. rewrite wrap_mul_wrap_l.
  pose proof (Z.div_mod (a * b) (2 ^ 64) ltac:(lia)) as Hdm.
  rewrite Hab in Hdm.
  replace (v * a * b) with (v + (v * (a * b / 2 ^ 64)) * 2 ^ 64) by nia.
  rewrite wrap_add_multiple. by apply wrap_id.
Qed.

Lemma wrap_wrap_add_l a b : I64.wrap (I64.wrap a + b) = I64.wrap (a + b).
Proof.
  destruct (wrap_multiple a) as (k & ->).
  replace (a + k * 2 ^ 64 + b) with (a + b + k * 2 ^ 64) by lia.
  apply wrap_add_multiple.
Qed.

Lemma add_mul_wrap a b c : I64.add (I64.mul a b) c = I64.wrap (a * b + c).
Proof. unfold I64.add, I64.mul. apply wrap_wrap_add_l. Qed.

Lemma wrap_high z :
  2 ^ 63 <= z < 2 ^ 63 + 2 ^ 64 -> I64.wrap z = z - 2 ^ 64.
Proof.
  intros Hz. replace z with (z - 2 ^ 64 + 1 * 2 ^ 64) at 1 by lia.
  rewrite wrap_add_multiple. apply wrap_id. i64_range.
Qed.

Lemma div_neg_antitone a b c : c < 0 -> a <= b -> b / c <= a / c.
Proof.
  intros Hc Hab.
  rewrite <- (Z.div_opp_opp a c), <- (Z.div_opp_opp b c) by lia.
  apply Z.div_le_mono; lia.
Qed.

(** ** The ceiling of the square root *)

Lemma ceil_sqrt_spec n :
  1 <= n ->
  1 <= ceil_sqrt n /\ (ceil_sqrt n - 1) * (ceil_sqrt n - 1) < n <= ceil_sqrt n * ceil_sqrt n.
Proof.
  intros Hn. unfold ceil_sqrt.
  pose proof (Z.sqrt_spec n ltac:(lia)) as Hs.
  pose proof (Z.sqrt_nonneg n) as Hs0.
  unfold Z.succ in Hs. set (s := Z.sqrt n) in *.
  destruct (Z.eqb_spec (s * s) n) as [Heq | Hne].
  - assert (1 <= s) by nia. repeat split; nia.
  - repeat split; nia.
Qed.

Lemma ceil_sqrt_le n : valid_numParts n -> ceil_sqrt n <= 2 ^ 26.
Proof.
  unfold valid_numParts, maxNumParts. intros Hn.
  destruct (ceil_sqrt_spec n) as (H1 & H2 & H3); [lia |].
  change (2 ^ 52) with (2 ^ 26 * 2 ^ 26) in Hn.
  set (k := 2 ^ 26) in *. assert (0 < k) by (subst k; lia). nia.
Qed.

(** Below [2 ^ 52] the double-precision computation is exact: the argument
    is a double, and a root that is not an integer is further than half a
    unit in the last place from the integer below it. *)
Lemma ceil_sqrt_double_exact n :
  0 <= n < 2 ^ 52 -> ceil_sqrt_double (double_of_int n) = ceil_sqrt n.
Proof.
  intros Hn. unfold double_of_int.
  destruct (Z.ltb_spec n (2 ^ 53)); [| lia].
  unfold ceil_sqrt_double, ceil_sqrt.
  pose proof (Z.sqrt_spec n ltac:(lia)) as Hs.
  pose proof (Z.sqrt_nonneg n) as Hs0.
  unfold Z.succ in Hs. set (s := Z.sqrt n) in *.
  destruct (Z.eqb_spec (s * s) n) as [Heq | Hne]; [reflexivity |].
  assert (1 <= s) as Hs1 by nia.
  assert (s < 2 ^ 26) as Hs26.
  { change (2 ^ 52) with (2 ^ 26 * 2 ^ 26) in Hn.
    set (k := 2 ^ 26) in *. assert (0 < k) by (subst k; lia). nia. }
  assert (Z.log2 s < 26) as Hl by (apply Z.log2_lt_pow2; lia).
  pose proof (Z.log2_nonneg s) as Hl0.
  destruct (Z.ltb_spec (Z.log2 s) 53); [| lia].
  assert (2 ^ 28 <= 2 ^ (53 - Z.log2 s)) as Hp
    by (apply Z.pow_le_mono_r; lia).
  set (P := 2 ^ (53 - Z.log2 s)) in *.
  assert (2 * s + 1 <= P) by lia.
  destruct (Z.ltb_spec (n * (P * P)) ((s * P + 1) * (s * P + 1)));
    [nia | reflexivity].
Qed.

Lemma math_ceil_sqrt_valid n :
  0 <= n < 2 ^ 52 -> math_ceil_sqrt n = Ok (ceil_sqrt n).
Proof.
  intros Hn. unfold math_ceil_sqrt.
  assert (2 ^ 52 <= double_overflow) as Hbig by (vm_compute; discriminate).
  destruct (Z.leb_spec n (- double_overflow)); [lia |].
  destruct (Z.leb_spec double_overflow n); [lia |].
  destruct (Z.ltb_spec n 0); [lia |]. cbn [orb].
  rewrite ceil_sqrt_double_exact by done.
  apply np_int64_in_range.
  destruct (Z.eq_dec n 0) as [-> | Hne]; [vm_compute; split; discriminate |].
  pose proof (ceil_sqrt_le n ltac:(unfold valid_numParts, maxNumParts; lia))
    as Hle.
  destruct (ceil_sqrt_spec n ltac:(lia)) as (Hge & _).
  i64_range.
Qed.

(** In the whole range of [np.int64] the double-precision computation
    yields a root between 1 and [2 ^ 32]. *)
Lemma double_of_int_bounds n :
  1 <= n <= I64.max_signed -> 1 <= double_of_int n <= 2 ^ 63.
Proof.
  unfold I64.max_signed. intros Hn. unfold double_of_int.
  destruct (Z.ltb_spec n (2 ^ 53)); [lia |].
  assert (53 <= Z.log2 n) as Hl1
    by (rewrite <- (Z.log2_pow2 53) by lia; apply Z.log2_le_mono; lia).
  assert (Z.log2 n < 63) as Hl2 by (apply Z.log2_lt_pow2; lia).
  destruct (Z.log2_spec n ltac:(lia)) as [Hlo Hhi].
  replace (Z.succ (Z.log2 n)) with (53 + (Z.log2 n - 52)) in Hhi by lia.
  replace (Z.log2 n) with (52 + (Z.log2 n - 52)) in Hlo at 1 by lia.
  rewrite Z.pow_add_r in Hlo, Hhi by lia.
  assert (2 ^ (Z.log2 n - 52) <= 2 ^ 10) as He
    by (apply Z.pow_le_mono_r; lia).
  assert (0 < 2 ^ (Z.log2 n - 52)) as He0 by (apply Z.pow_pos_nonneg; lia).
  set (E := 2 ^ (Z.log2 n - 52)) in *.
  pose proof (Z.div_mod n E ltac:(lia)) as Hdm.
  pose proof (Z.mod_pos_bound n E ltac:(lia)) as Hm.
  set (q := n / E) in *. set (r := n mod E) in *.
  assert (2 ^ 52 <= q < 2 ^ 53) as Hq by nia.
  change (2 ^ 63) with (2 ^ 53 * 2 ^ 10).
  destruct (r <? _); [nia |].
  destruct (_ <? r); [nia |].
  destruct (Z.even q); nia.
Qed.

Lemma ceil_sqrt_double_bounds x :
  1 <= x <= 2 ^ 63 -> 1 <= ceil_sqrt_double x <= 2 ^ 32.
Proof.
  intros Hx. unfold ceil_sqrt_double.
  pose proof (Z.sqrt_spec x ltac:(lia)) as Hs.
  pose proof (Z.sqrt_nonneg x) as Hs0.
  unfold Z.succ in Hs. set (s := Z.sqrt x) in *.
  assert (1 <= s) as Hs1 by nia.
  assert (s < 2 ^ 32) as Hs32.
  { assert (x < 2 ^ 32 * 2 ^ 32) as Hx' by lia.
    set (k := 2 ^ 32) in *. assert (0 < k) by (subst k; lia). nia. }
  assert (Z.log2 s < 32) as Hl by (apply Z.log2_lt_pow2; lia).
  destruct (_ =? x); [lia |].
  destruct (Z.ltb_spec (Z.log2 s) 53); [| lia].
  destruct (_ <? _); lia.
Qed.

Lemma math_ceil_sqrt_int64 n :
  1 <= n <= I64.max_signed ->
  exists c, math_ceil_sqrt n = Ok c /\ 1 <= c <= 2 ^ 32.
Proof.
  intros Hn. unfold math_ceil_sqrt.
  assert (I64.max_signed < double_overflow) as Hbig by reflexivity.
  destruct (Z.leb_spec n (- double_overflow)); [lia |].
  destruct (Z.leb_spec double_overflow n); [lia |].
  destruct (Z.ltb_spec n 0); [lia |]. cbn [orb].
  pose proof (ceil_sqrt_double_bounds _ (double_of_int_bounds n Hn)) as Hc.
  eexists. split; [apply np_int64_in_range; i64_range | exact Hc].
Qed.

(** The outcome of the square root for an invalid [numParts]. *)
Lemma math_ceil_sqrt_nonpositive n :
  n <= 0 ->
  math_ceil_sqrt n =
    if n <=? - double_overflow then Raise OverflowError
    else if n <? 0 then Raise ValueError else Ok 0.
Proof.
  intros Hn. unfold math_ceil_sqrt.
  assert (0 < double_overflow) as Hbig by reflexivity.
  destruct (Z.leb_spec double_overflow n); [lia |]. rewrite orb_false_r.
  destruct (n <=? - double_overflow); [reflexivity |].
  destruct (Z.ltb_spec n 0); [reflexivity |].
  assert (n = 0) as -> by lia. reflexivity.
Qed.

(** *** The double-precision root in the whole 64-bit range *)

(** Rounding an int to a double moves it by at most half a unit in its last
    place. *)
Lemma double_of_int_near n :
  2 ^ 53 <= n <= I64.max_signed ->
  2 ^ 52 <= double_of_int n /\
  Z.abs (double_of_int n - n) <= 2 ^ (Z.log2 n - 53).
Proof.
  unfold I64.max_signed. intros Hn. unfold double_of_int.
  destruct (Z.ltb_spec n (2 ^ 53)); [lia |].
  assert (53 <= Z.log2 n) as Hl1
    by (rewrite <- (Z.log2_pow2 53) by lia; apply Z.log2_le_mono; lia).
  destruct (Z.log2_spec n ltac:(lia)) as [Hlo Hhi].
  replace (Z.succ (Z.log2 n)) with (54 + (Z.log2 n - 53)) in Hhi by lia.
  replace (Z.log2 n) with (53 + (Z.log2 n - 53)) in Hlo at 1 by lia.
  rewrite Z.pow_add_r in Hlo, Hhi by lia.
  replace (Z.log2 n - 52) with (Z.succ (Z.log2 n - 53)) by lia.
  rewrite Z.pow_succ_r by lia.
  replace (Z.succ (Z.log2 n - 53) - 1) with (Z.log2 n - 53) by lia.
  assert (0 < 2 ^ (Z.log2 n - 53)) as HD by (apply Z.pow_pos_nonneg; lia).
  set (D := 2 ^ (Z.log2 n - 53)) in *.
  pose proof (Z.div_mod n (2 * D) ltac:(lia)) as Hdm.
  pose proof (Z.mod_pos_bound n (2 * D) ltac:(lia)) as Hm.
  set (q := n / (2 * D)) in *. set (r := n mod (2 * D)) in *.
  assert (2 ^ 52 <= q) as Hq by nia.
  destruct (Z.ltb_spec r D); [split; nia |].
  destruct (Z.ltb_spec D r); [split; nia |].
  destruct (Z.even q); split; nia.
Qed.

(** The computed root [c] never exceeds the true ceiling, and where it falls
    short of it, [numParts] is only just above [c * c]. *)
Lemma ceil_sqrt_double_spec n :
  1 <= n <= I64.max_signed ->
  let c := ceil_sqrt_double (double_of_int n) in
  c <= ceil_sqrt n /\
  (c * c < n -> n <= c * c + 2 ^ 12 /\ 2 ^ 26 <= c).
Proof.
  intros Hn c.
  destruct (Z.lt_ge_cases n (2 ^ 53)) as [Hsmall | Hbig].
  { (* the argument is a double *)
    assert (double_of_int n = n) as Hx
      by (unfold double_of_int; destruct (Z.ltb_spec n (2 ^ 53)); [done | lia]).
    subst c. rewrite Hx. unfold ceil_sqrt_double, ceil_sqrt.
    pose proof (Z.sqrt_spec n ltac:(lia)) as Hs.
    pose proof (Z.sqrt_nonneg n) as Hs0.
    unfold Z.succ in Hs. set (s := Z.sqrt n) in *.
    destruct (Z.eqb_spec (s * s) n) as [Heq | Hne]; [lia |].
    assert (1 <= s) as Hs1 by nia.
    assert (s < 2 ^ 27) as Hs27.
    { assert (n < 2 ^ 27 * 2 ^ 27) as Hn' by lia.
      set (k := 2 ^ 27) in *. assert (0 < k) by (subst k; lia). nia. }
    assert (Z.log2 s < 27) as Hl by (apply Z.log2_lt_pow2; lia).
    pose proof (Z.log2_nonneg s) as Hl0.
    destruct (Z.ltb_spec (Z.log2 s) 53); [| lia].
    assert (2 ^ 27 <= 2 ^ (53 - Z.log2 s)) as Hp
      by (apply Z.pow_le_mono_r; lia).
    assert (s < 2 ^ 26 -> 2 ^ 28 <= 2 ^ (53 - Z.log2 s)) as Hp'.
    { intros Hs26. apply Z.pow_le_mono_r; [lia |].
      assert (Z.log2 s < 26) by (apply Z.log2_lt_pow2; lia). lia. }
    set (P := 2 ^ (53 - Z.log2 s)) in *.
    destruct (Z.ltb_spec (n * (P * P)) ((s * P + 1) * (s * P + 1)));
      [| lia].
    split; [lia |]. intros Hlt.
    (* (n - s^2) P <= 2 s: either P > 2 s and n = s^2, or s >= 2^26 *)
    assert ((n - s * s) * P <= 2 * s) by nia.
    destruct (Z.lt_ge_cases s (2 ^ 26)) as [Hs26 | Hs26].
    - exfalso. specialize (Hp' Hs26). nia.
    - split; [nia | lia]. }
  destruct (double_of_int_near n ltac:(lia)) as [Hx52 Hnear].
  pose proof (double_of_int_bounds n Hn) as Hx63.
  assert (53 <= Z.log2 n) as Hl1
    by (rewrite <- (Z.log2_pow2 53) by lia; apply Z.log2_le_mono; lia).
  assert (Z.log2 n < 63) as Hl2
    by (apply Z.log2_lt_pow2; unfold I64.max_signed in Hn; lia).
  set (x := double_of_int n) in *.
  pose proof (Z.sqrt_spec x ltac:(lia)) as Hs.
  pose proof (Z.sqrt_nonneg x) as Hs0.
  unfold Z.succ in Hs.
  assert (2 ^ 26 <= Z.sqrt x) as Hs26.
  { apply Z.sqrt_le_square; lia. }
  assert (Z.sqrt x < 2 ^ 32) as Hs32.
  { apply Z.sqrt_lt_square; lia. }
  assert (26 <= Z.log2 (Z.sqrt x)) as Hls1 by (apply Z.log2_le_pow2; lia).
  assert (Z.log2 (Z.sqrt x) < 32) as Hls2 by (apply Z.log2_lt_pow2; lia).
  destruct (Z.log2_spec (Z.sqrt x) ltac:(lia)) as [Hslo Hshi].
  assert (2 ^ (Z.log2 n - 53) <= 2 ^ 9) as HD9
    by (apply Z.pow_le_mono_r; lia).
  assert (0 < 2 ^ (Z.log2 n - 53)) as HD0 by (apply Z.pow_pos_nonneg; lia).
  assert (2 ^ (Z.log2 n - 53) * 2 ^ (53 - Z.log2 (Z.sqrt x)) =
            2 ^ (Z.log2 n - Z.log2 (Z.sqrt x))) as HDP.
  { rewrite <- Z.pow_add_r by lia. f_equal. lia. }
  assert (2 ^ 22 <= 2 ^ (53 - Z.log2 (Z.sqrt x))) as HP22
    by (apply Z.pow_le_mono_r; lia).
  destruct (ceil_sqrt_spec n ltac:(lia)) as (HC1 & HClo & HChi).
  assert (2 ^ 26 <= ceil_sqrt n) as HC26.
  { destruct (Z.le_gt_cases (2 ^ 26) (ceil_sqrt n)) as [| Hlt]; [done |].
    pose proof (Z.square_le_mono_nonneg (ceil_sqrt n) (2 ^ 26 - 1)
                  ltac:(lia) ltac:(lia)). lia. }
  subst c. unfold ceil_sqrt_double.
  fold x. set (s := Z.sqrt x) in *. set (D := 2 ^ (Z.log2 n - 53)) in *.
  set (P := 2 ^ (53 - Z.log2 s)) in *. set (C := ceil_sqrt n) in *.
  (* s <= C, since s^2 <= x <= n + D < (C + 1)^2 *)
  assert (s <= C) as HsC.
  { assert (s < C + 1); [| lia].
    apply Z.square_lt_simpl_nonneg; lia. }
  destruct (Z.eqb_spec (s * s) x) as [Heq | Hne].
  { split; [done |]. intros Hlt. split; lia. }
  destruct (Z.ltb_spec (Z.log2 s) 53); [| lia].
  destruct (Z.ltb_spec (x * (P * P)) ((s * P + 1) * (s * P + 1)))
    as [Hdown | Hup].
  - (* the root rounds down to s *)
    split; [done |]. intros Hlt. split; [| lia].
    assert ((x - s * s) * P * P <= 2 * s * P) as H1 by lia.
    assert ((x - s * s) * P <= 2 * s) as H2
      by (apply Z.mul_le_mono_pos_r with (p := P); lia).
    assert ((x - s * s) * 2 ^ 22 <= (x - s * s) * P) as H3
      by (apply Z.mul_le_mono_nonneg_l; lia).
    lia.
  - (* the root rounds up: the result is s + 1 *)
    split; [| intros Hlt; split; lia].
    destruct (Z.le_gt_cases (s + 1) C) as [Hle | Hgt]; [done |].
    exfalso. assert (C = s) as HCs by lia.
    assert (x - s * s <= D) as Hxs by (rewrite <- HCs; lia).
    assert (Z.log2 n < 2 * Z.log2 s + 2) as Hln.
    { apply Z.log2_lt_pow2; [lia |].
      replace (2 * Z.log2 s + 2)
        with (Z.succ (Z.log2 s) + Z.succ (Z.log2 s)) by lia.
      rewrite Z.pow_add_r by lia.
      pose proof (Z.square_le_mono_nonneg (s + 1) (2 ^ Z.succ (Z.log2 s))
                    ltac:(lia) ltac:(lia)) as Hsq.
      rewrite HCs in HChi. lia. }
    assert (2 ^ (Z.log2 n - Z.log2 s) <= 2 ^ Z.succ (Z.log2 s)) as Hpow
      by (apply Z.pow_le_mono_r; lia).
    rewrite Z.pow_succ_r in Hpow by lia.
    assert (D * P <= 2 * s) as HDP' by lia.
    assert ((x - s * s) * P <= D * P) as H1
      by (apply Z.mul_le_mono_nonneg_r; lia).
    assert ((x - s * s) * P * P <= 2 * s * P) as H2
      by (apply Z.mul_le_mono_nonneg_r; lia).
    lia.
Qed.

(** The root the code computes, for a [numParts] that fits in 64 bits. *)
Lemma code_cols n :
  1 <= n <= I64.max_signed ->
  exists c,
    math_ceil_sqrt n = Ok c /\ 1 <= c <= 2 ^ 32 /\ c <= ceil_sqrt n /\
    (c * c < n -> n <= c * c + 2 ^ 12 /\ 2 ^ 26 <= c).
Proof.
  intros Hn. exists (ceil_sqrt_double (double_of_int n)).
  pose proof (ceil_sqrt_double_bounds _ (double_of_int_bounds n Hn)) as Hc.
  destruct (ceil_sqrt_double_spec n Hn) as [Hle Hlt].
  split; [| done].
  unfold math_ceil_sqrt.
  assert (I64.max_signed < double_overflow) as Hbig by reflexivity.
  destruct (Z.leb_spec n (- double_overflow)); [lia |].
  destruct (Z.leb_spec double_overflow n); [lia |].
  destruct (Z.ltb_spec n 0); [lia |]. cbn [orb].
  apply np_int64_in_range. i64_range.
Qed.

(** The computed root is the true ceiling or one less, and in the second
    case [numParts] is at most [c * (c + 1)]. *)
Lemma cols_choice n c :
  1 <= n -> 1 <= c -> c <= ceil_sqrt n ->
  (c * c < n -> n <= c * c + 2 ^ 12 /\ 2 ^ 26 <= c) ->
  c = ceil_sqrt n \/ (c = ceil_sqrt n - 1 /\ c * c < n <= c * c + c).
Proof.
  intros Hn Hc Hle Hlt.
  destruct (ceil_sqrt_spec n Hn) as (HC1 & HClo & HChi).
  set (C := ceil_sqrt n) in *.
  destruct (Z.lt_ge_cases (c * c) n) as [Hcn | Hcn].
  - right. destruct (Hlt Hcn) as [Hn12 Hc26].
    assert (C - 1 < c + 1) as Hlt'
      by (apply Z.square_lt_simpl_nonneg; lia).
    destruct (Z.eq_dec c C) as [-> | Hne]; lia.
  - left. assert (C - 1 < c); [| lia].
    apply Z.square_lt_simpl_nonneg; lia.
Qed.

Lemma ceil_sqrt_le_maxCols n :
  1 <= n <= I64.max_signed -> ceil_sqrt n <= maxCols.
Proof.
  intros Hn. destruct (ceil_sqrt_spec n ltac:(lia)) as (HC1 & HClo & _).
  unfold maxCols, I64.max_signed in *.
  assert (ceil_sqrt n - 1 < 3037000500); [| lia].
  apply Z.square_lt_simpl_nonneg; lia.
Qed.

Lemma code_cols_top n :
  2 ^ 63 - maxCols < n <= I64.max_signed ->
  math_ceil_sqrt n = Ok maxCols /\ ceil_sqrt n = maxCols.
Proof.
  unfold maxCols, I64.max_signed. intros Hn.
  destruct (code_cols n ltac:(unfold I64.max_signed; lia))
    as (c & Hc & Hc1 & Hle & Hlt).
  destruct (ceil_sqrt_spec n ltac:(lia)) as (HC1 & HClo & HChi).
  assert (ceil_sqrt n = 3037000500) as HC.
  { set (C := ceil_sqrt n) in *.
    assert (C - 1 < 3037000500)
      by (apply Z.square_lt_simpl_nonneg; lia).
    assert (3037000500 - 1 < C)
      by (apply Z.square_lt_simpl_nonneg; lia).
    lia. }
  split; [| done]. rewrite Hc. f_equal. rewrite HC in Hle.
  destruct (Z.lt_ge_cases (c * c) n) as [Hcn | Hcn].
  - exfalso. destruct (Hlt Hcn) as [Hn12 _].
    destruct (Z.eq_dec c 3037000500) as [-> | Hne]; [lia |].
    pose proof (Z.square_le_mono_nonneg c (3037000500 - 1)
                  ltac:(lia) ltac:(lia)). lia.
  - assert (3037000500 - 1 < c); [| lia].
    apply Z.square_lt_simpl_nonneg; lia.
Qed.

(** On a perfect square that fits in 64 bits the computed root is exact,
    and [numParts + cols - 1] fits as well. *)
Lemma code_cols_square n :
  1 <= n <= I64.max_signed -> perfect_square n ->
  math_ceil_sqrt n = Ok (ceil_sqrt n) /\
  1 <= ceil_sqrt n <= 2 ^ 32 /\
  n + ceil_sqrt n - 1 <= I64.max_signed.
Proof.
  intros Hn Hsq. unfold perfect_square in Hsq.
  destruct (code_cols n Hn) as (c & Hc & Hc1 & Hle & Hlt).
  destruct (cols_choice n c ltac:(lia) ltac:(lia) Hle Hlt)
    as [-> | (-> & Hlo & Hhi)].
  - split; [exact Hc |]. split; [exact Hc1 |].
    pose proof (ceil_sqrt_le_maxCols n Hn) as HK.
    set (C := ceil_sqrt n) in *. unfold maxCols, I64.max_signed in *.
    destruct (Z.eq_dec C 3037000500) as [HCK | Hne]; [rewrite HCK in Hsq; lia |].
    pose proof (Z.square_le_mono_nonneg C (3037000500 - 1)
                  ltac:(lia) ltac:(lia)). lia.
  - exfalso. set (C := ceil_sqrt n) in *. lia.
Qed.

(** ** Grid geometry *)

Lemma valid_numParts_pos n : valid_numParts n -> 1 <= n < 2 ^ 52.
Proof. unfold valid_numParts, maxNumParts. lia. Qed.

Lemma gridCols_bounds n : valid_numParts n -> 1 <= gridCols n <= 2 ^ 26.
Proof.
  intros Hn. unfold gridCols. split; [| by apply ceil_sqrt_le].
  apply ceil_sqrt_spec. apply valid_numParts_pos in Hn. lia.
Qed.

Lemma gridRows_bounds n :
  valid_numParts n ->
  1 <= gridRows n <= gridCols n /\
  n <= gridRows n * gridCols n < n + gridCols n.
Proof.
  intros Hn. pose proof (gridCols_bounds n Hn) as Hc.
  apply valid_numParts_pos in Hn.
  destruct (ceil_sqrt_spec n) as (_ & Hlo & Hhi); [lia |].
  unfold gridRows. fold (gridCols n) in Hlo, Hhi.
  set (cols := gridCols n) in *.
  pose proof (Z.div_mod (n + cols - 1) cols ltac:(lia)) as Hdm.
  pose proof (Z.mod_pos_bound (n + cols - 1) cols ltac:(lia)) as Hm.
  set (rows := (n + cols - 1) / cols) in *.
  set (m := (n + cols - 1) mod cols) in *.
  assert (n <= rows * cols < n + cols) as Hrc by nia.
  split; [| exact Hrc].
  split; nia.
Qed.

Lemma gridLastColRows_bounds n :
  valid_numParts n -> 1 <= gridLastColRows n <= gridRows n.
Proof.
  intros Hn. pose proof (gridCols_bounds n Hn) as Hc.
  destruct (gridRows_bounds n Hn) as ([Hr1 Hr2] & Hrc1 & Hrc2).
  apply valid_numParts_pos in Hn.
  destruct (ceil_sqrt_spec n) as (_ & Hlo & Hhi); [lia |].
  unfold gridLastColRows. fold (gridCols n) in Hlo, Hhi.
  set (cols := gridCols n) in *. set (rows := gridRows n) in *.
  split; [| nia].
  destruct (Z.eq_dec rows cols) as [-> | Hne]; [nia |].
  assert (rows <= cols - 1) by lia.
  assert (rows * (cols - 1) <= (cols - 1) * (cols - 1)) by nia.
  lia.
Qed.

(** Within the valid range no operation of the geometry wraps. *)
Lemma rows_of_eq n :
  valid_numParts n -> rows_of n (ceil_sqrt n) = gridRows n.
Proof.
  intros Hn. pose proof (gridCols_bounds n Hn) as Hc.
  apply valid_numParts_pos in Hn. unfold gridRows, gridCols in *.
  set (cols := ceil_sqrt n) in *.
  unfold rows_of, I64.add, I64.sub.
  rewrite (wrap_id (n + cols)) by i64_range.
  rewrite (wrap_id (n + cols - 1)) by i64_range.
  apply floordiv_small; unfold I64.max_signed; lia.
Qed.

Lemma lastColRows_of_eq n :
  valid_numParts n ->
  lastColRows_of n (ceil_sqrt n) (gridRows n) = gridLastColRows n.
Proof.
  intros Hn. pose proof (gridCols_bounds n Hn) as Hc.
  destruct (gridRows_bounds n Hn) as ([Hr1 Hr2] & _).
  pose proof (gridLastColRows_bounds n Hn) as Hl.
  apply valid_numParts_pos in Hn. unfold gridLastColRows, gridCols in *.
  set (cols := ceil_sqrt n) in *. set (rows := gridRows n) in *.
  assert (0 <= rows * (cols - 1) <= 2 ^ 26 * 2 ^ 26) by nia.
  unfold lastColRows_of, I64.sub, I64.mul.
  rewrite (wrap_id (cols - 1)) by i64_range.
  rewrite (wrap_id (rows * (cols - 1))) by i64_range.
  apply wrap_id. i64_range.
Qed.

(** *** The grid for the root the code computes *)

Lemma ceil_div_spec n c :
  1 <= n -> 1 <= c ->
  1 <= (n + c - 1) / c /\ n <= (n + c - 1) / c * c <= n + c - 1.
Proof.
  intros Hn Hc.
  pose proof (Z.div_mod (n + c - 1) c ltac:(lia)) as Hdm.
  pose proof (Z.mod_pos_bound (n + c - 1) c ltac:(lia)) as Hm.
  set (r := (n + c - 1) / c) in *. set (m := (n + c - 1) mod c) in *.
  split; nia.
Qed.

(** In either case the grid has at most [C] rows and at most [C] columns
    in use. *)
Lemma grid_within_ceiling n c :
  1 <= n -> 1 <= c ->
  c = ceil_sqrt n \/ (c = ceil_sqrt n - 1 /\ c * c < n <= c * c + c) ->
  (n + c - 1) / c <= ceil_sqrt n /\
  (n - 1) / ((n + c - 1) / c) < ceil_sqrt n.
Proof.
  intros Hn Hc Hcase.
  destruct (ceil_sqrt_spec n Hn) as (HC1 & HClo & HChi).
  destruct (ceil_div_spec n c Hn Hc) as (Hr1 & Hrlo & Hrhi).
  set (C := ceil_sqrt n) in *. set (r := (n + c - 1) / c) in *.
  destruct Hcase as [-> | [-> Hcc]].
  - split.
    + assert (r < C + 1); [| lia]. nia.
    + apply Z.div_lt_upper_bound; nia.
  - assert (r = C) as -> by nia.
    split; [lia |]. apply Z.div_lt_upper_bound; nia.
Qed.

(** The last column of the computed grid is never empty and never taller
    than the others, also where the computed root is one less than the true
    ceiling. *)
Lemma grid_last_column n c :
  1 <= n -> 1 <= c ->
  c = ceil_sqrt n \/ (c = ceil_sqrt n - 1 /\ c * c < n <= c * c + c) ->
  1 <= n - (n + c - 1) / c * (c - 1) <= (n + c - 1) / c.
Proof.
  intros Hn Hc Hchoice.
  destruct (ceil_div_spec n c Hn Hc) as (Hr1 & Hrlo & Hrhi).
  destruct (grid_within_ceiling n c Hn Hc Hchoice) as [Hr _].
  destruct (ceil_sqrt_spec n Hn) as (HC1 & HClo & HChi).
  set (r := (n + c - 1) / c) in *. set (C := ceil_sqrt n) in *.
  split; [| lia].
  destruct Hchoice as [-> | (-> & Hlo & Hhi)].
  - destruct (Z.eq_dec r C) as [-> | Hne]; [nia |].
    assert (r * (C - 1) <= (C - 1) * (C - 1)); [| lia].
    apply Z.mul_le_mono_nonneg_r; lia.
  - assert (r = C) as -> by nia. nia.
Qed.

(** The geometry as the code computes it, in 64 bits, is the geometry in
    unbounded integers. *)
Lemma geometry_fits n c :
  1 <= n -> 1 <= c <= 2 ^ 32 -> n + c - 1 <= I64.max_signed ->
  let r := (n + c - 1) / c in
  rows_of n c = r /\ lastColRows_of n c r = n - r * (c - 1).
Proof.
  intros Hn Hc1 Hfit r.
  destruct (ceil_div_spec n c Hn ltac:(lia)) as (Hr1 & Hrlo & Hrhi).
  fold r in Hr1, Hrlo, Hrhi. unfold I64.max_signed in Hfit.
  split.
  - unfold rows_of, I64.sub, I64.add.
    replace (I64.wrap (n + c) - 1) with (I64.wrap (n + c) + -1) by lia.
    rewrite wrap_wrap_add_l. rewrite wrap_id by i64_range.
    replace (n + c + -1) with (n + c - 1) by lia.
    apply floordiv_small; unfold I64.max_signed; lia.
  - assert (0 <= r * (c - 1) <= n + c - 1) as Hrc by nia.
    unfold lastColRows_of, I64.sub, I64.mul.
    rewrite (wrap_id (c - 1)) by i64_range.
    rewrite (wrap_id (r * (c - 1))) by i64_range.
    apply wrap_id. i64_range.
Qed.

(** ** Closed forms of the two partitioners *)

Lemma newCol_bounds src n :
  valid_numParts n -> 0 <= newCol src n <= gridCols n - 1.
Proof.
  intros Hn. destruct (gridRows_bounds n Hn) as ([Hr1 Hr2] & Hrc1 & Hrc2).
  apply valid_numParts_pos in Hn. unfold newCol.
  pose proof (Z.mod_pos_bound (mix src) n ltac:(lia)) as Hh.
  set (h := mix src mod n) in *. set (rows := gridRows n) in *.
  split; [apply Z.div_pos; lia |].
  assert (h / rows < gridCols n); [| lia].
  apply Z.div_lt_upper_bound; nia.
Qed.

Lemma colHeight_bounds n c :
  valid_numParts n -> 1 <= colHeight n c <= gridRows n.
Proof.
  intros Hn. pose proof (gridLastColRows_bounds n Hn).
  destruct (gridRows_bounds n Hn) as ([Hr1 Hr2] & _).
  unfold colHeight. destruct (_ <? _); lia.
Qed.

Lemma newRow_bounds dst n c :
  valid_numParts n -> 0 <= newRow dst n c < colHeight n c.
Proof.
  intros Hn. pose proof (colHeight_bounds n c Hn).
  unfold newRow. apply Z.mod_pos_bound. lia.
Qed.

(** The cell [(col, row)] of the grid is a partition index. *)
Lemma grid_index_bounds n c r :
  valid_numParts n ->
  0 <= c <= gridCols n - 1 -> 0 <= r < colHeight n c ->
  0 <= c * gridRows n + r < n.
Proof.
  intros Hn Hc Hr. pose proof (gridLastColRows_bounds n Hn) as Hl.
  destruct (gridRows_bounds n Hn) as ([Hr1 Hr2] & _).
  unfold colHeight in Hr. unfold gridLastColRows in *.
  set (rows := gridRows n) in *. set (cols := gridCols n) in *.
  destruct (Z.ltb_spec c (cols - 1)); nia.
Qed.

Lemma new2d_eq src dst n :
  valid_numParts n -> I64.in_range src -> I64.in_range dst ->
  new2d src dst n =
    Ok (newCol src n * gridRows n + newRow dst n (newCol src n)).
Proof.
  intros Hn Hs Hd. unfold new2d.
  rewrite (np_int64_in_range src Hs), (np_int64_in_range dst Hd).
  rewrite math_ceil_sqrt_valid by (apply valid_numParts_pos in Hn; lia).
  rewrite (np_int64_in_range n)
    by (apply valid_numParts_pos in Hn; i64_range).
  cbn [bind]. rewrite (rows_of_eq n Hn), (lastColRows_of_eq n Hn).
  pose proof (gridCols_bounds n Hn) as Hc.
  destruct (gridRows_bounds n Hn) as ([Hr1 Hr2] & Hrc1 & Hrc2).
  pose proof (newCol_bounds src n Hn) as Hcol.
  pose proof (newRow_bounds dst n (newCol src n) Hn) as Hrow.
  pose proof (grid_index_bounds n _ _ Hn Hcol Hrow) as Hidx.
  pose proof (colHeight_bounds n (newCol src n) Hn) as Hh.
  pose proof (valid_numParts_pos n Hn) as Hn'.
  pose proof (Z.mod_pos_bound (mix src) n ltac:(lia)) as Hm.
  rewrite (rem_pos (mix src) n) by lia.
  rewrite floordiv_small by (unfold I64.max_signed; lia).
  fold (newCol src n). unfold I64.sub at 1.
  rewrite (wrap_id (ceil_sqrt n - 1)) by (unfold gridCols in Hc; i64_range).
  fold (gridCols n). fold (colHeight n (newCol src n)).
  rewrite rem_pos by lia. fold (newRow dst n (newCol src n)).
  unfold I64.add, I64.mul.
  assert (0 <= newCol src n * gridRows n <= n) by nia.
  rewrite (wrap_id (newCol src n * gridRows n)) by i64_range.
  rewrite wrap_id by i64_range. reflexivity.
Qed.

Lemma oldCol_bounds src n :
  valid_numParts n -> 0 <= oldCol src n < ceil_sqrt n.
Proof.
  intros Hn. pose proof (gridCols_bounds n Hn) as Hc. unfold gridCols in Hc.
  unfold oldCol. apply Z.mod_pos_bound. lia.
Qed.

Lemma oldRow_bounds dst n :
  valid_numParts n -> 0 <= oldRow dst n < ceil_sqrt n.
Proof.
  intros Hn. pose proof (gridCols_bounds n Hn) as Hc. unfold gridCols in Hc.
  unfold oldRow. apply Z.mod_pos_bound. lia.
Qed.

Lemma old2d_eq src dst n :
  valid_numParts n -> I64.in_range src -> I64.in_range dst ->
  old2d src dst n =
    Ok ((oldCol src n * ceil_sqrt n + oldRow dst n) mod n).
Proof.
  intros Hn Hs Hd. unfold old2d.
  rewrite (np_int64_in_range src Hs), (np_int64_in_range dst Hd).
  rewrite math_ceil_sqrt_valid by (apply valid_numParts_pos in Hn; lia).
  rewrite (np_int64_in_range n)
    by (apply valid_numParts_pos in Hn; i64_range).
  cbn [bind].
  pose proof (gridCols_bounds n Hn) as Hc. unfold gridCols in Hc.
  pose proof (oldCol_bounds src n Hn) as Hcol.
  pose proof (oldRow_bounds dst n Hn) as Hrow.
  pose proof (valid_numParts_pos n Hn) as Hn'.
  rewrite !(rem_pos _ (ceil_sqrt n)) by lia.
  fold (oldCol src n) (oldRow dst n).
  set (c := ceil_sqrt n) in *.
  assert (0 <= oldCol src n * c <= 2 ^ 26 * 2 ^ 26) by nia.
  unfold I64.add, I64.mul.
  rewrite (wrap_id (oldCol src n * c)) by i64_range.
  rewrite wrap_id by i64_range.
  rewrite rem_pos by lia. reflexivity.
Qed.

(** *** Every partition count that fits in 64 bits *)

Lemma mix_unmix h : 0 <= h <= I64.max_signed -> mix (unmix h) = h.
Proof.
  intros Hh. unfold mix, unmix.
  rewrite mul_mul_inverse by (i64_range || reflexivity).
  unfold I64.abs. rewrite Z.abs_eq by lia. apply wrap_id. i64_range.
Qed.

Lemma new2d_Ok_args src dst n p :
  new2d src dst n = Ok p -> I64.in_range src /\ I64.in_range dst.
Proof.
  intros Hp. unfold new2d in Hp.
  destruct (decide (I64.in_range src)) as [Hs | Hs];
    [| by rewrite (np_int64_out_of_range _ Hs) in Hp].
  destruct (decide (I64.in_range dst)) as [Hd | Hd]; [done |].
  by rewrite (np_int64_in_range _ Hs), (np_int64_out_of_range _ Hd) in Hp.
Qed.

Lemma old2d_Ok_args src dst n p :
  old2d src dst n = Ok p -> I64.in_range src /\ I64.in_range dst.
Proof.
  intros Hp. unfold old2d in Hp.
  destruct (decide (I64.in_range src)) as [Hs | Hs];
    [| by rewrite (np_int64_out_of_range _ Hs) in Hp].
  destruct (decide (I64.in_range dst)) as [Hd | Hd]; [done |].
  by rewrite (np_int64_in_range _ Hs), (np_int64_out_of_range _ Hd) in Hp.
Qed.

Lemma new2d_Ok_numParts src dst n p :
  new2d src dst n = Ok p -> I64.in_range n.
Proof.
  intros Hp. destruct (decide (I64.in_range n)) as [| Hn]; [done |].
  exfalso. unfold new2d in Hp.
  destruct (np_int64 src); [| done]. destruct (np_int64 dst); [| done].
  destruct (math_ceil_sqrt n); [| done]. cbn [bind] in Hp.
  by rewrite (np_int64_out_of_range _ Hn) in Hp.
Qed.

Lemma old2d_Ok_numParts src dst n p :
  old2d src dst n = Ok p -> I64.in_range n.
Proof.
  intros Hp. destruct (decide (I64.in_range n)) as [| Hn]; [done |].
  exfalso. unfold old2d in Hp.
  destruct (np_int64 src); [| done]. destruct (np_int64 dst); [| done].
  destruct (math_ceil_sqrt n); [| done]. cbn [bind] in Hp.
  by rewrite (np_int64_out_of_range _ Hn) in Hp.
Qed.

Lemma new2d_rows_Ok_numParts n rows :
  new2d_rows n = Ok rows -> I64.in_range n.
Proof.
  intros Hp. destruct (decide (I64.in_range n)) as [| Hn]; [done |].
  exfalso. unfold new2d_rows in Hp.
  destruct (math_ceil_sqrt n); [| done]. cbn [bind] in Hp.
  by rewrite (np_int64_out_of_range _ Hn) in Hp.
Qed.

Lemma new2d_nowrap src dst n c :
  1 <= n -> math_ceil_sqrt n = Ok c -> 1 <= c <= 2 ^ 32 ->
  n + c - 1 <= I64.max_signed ->
  I64.in_range src -> I64.in_range dst ->
  let r := (n + c - 1) / c in
  let col := (mix src mod n) / r in
  let M := if col <? c - 1 then r else n - r * (c - 1) in
  I64.floordiv (I64.rem (mix src) n) r = col /\
  new2d src dst n = Ok (I64.wrap (col * r + mix dst mod M)) /\
  1 <= M <= r /\ 0 <= col <= (n - 1) / r.
Proof.
  intros Hn Hc Hc1 Hfit Hs Hd r col M.
  destruct (ceil_div_spec n c Hn ltac:(lia)) as (Hr1 & Hrlo & Hrhi).
  destruct (geometry_fits n c Hn Hc1 Hfit) as [Hrows Hlast].
  fold r in Hr1, Hrlo, Hrhi, Hrows, Hlast. unfold I64.max_signed in Hfit.
  pose proof (Z.mod_pos_bound (mix src) n ltac:(lia)) as Hh.
  assert (0 <= col <= (n - 1) / r) as Hcol.
  { subst col. split; [apply Z.div_pos; lia |].
    apply Z.div_le_mono; lia. }
  assert (col * r <= mix src mod n) as Hcr.
  { subst col. pose proof (Z.div_mod (mix src mod n) r ltac:(lia)).
    pose proof (Z.mod_pos_bound (mix src mod n) r ltac:(lia)). nia. }
  assert (1 <= M <= r) as HM.
  { subst M. destruct (Z.ltb_spec col (c - 1)); [lia |]. nia. }
  assert (I64.floordiv (I64.rem (mix src) n) r = col) as Hcode.
  { rewrite (rem_pos _ n) by lia.
    apply floordiv_small; unfold I64.max_signed; lia. }
  split; [done |]. split; [| done].
  unfold new2d.
  rewrite (np_int64_in_range src Hs), (np_int64_in_range dst Hd), Hc.
  rewrite (np_int64_in_range n) by i64_range. cbn [bind].
  rewrite Hrows, Hlast, Hcode. unfold I64.sub at 1.
  rewrite (wrap_id (c - 1)) by i64_range.
  fold M. rewrite rem_pos by lia. by rewrite add_mul_wrap.
Qed.

Lemma new2d_wrapped src dst n :
  2 ^ 63 - maxCols < n <= I64.max_signed ->
  I64.in_range src -> I64.in_range dst ->
  let rows := (n + maxCols - 1 - 2 ^ 64) / maxCols in
  let col := (mix src mod n) / rows in
  rows_of n maxCols = rows /\
  I64.floordiv (I64.rem (mix src) n) rows = col /\
  new2d src dst n = Ok (I64.wrap (col * rows + mix dst mod rows)) /\
  (rows = - maxCols \/ rows = 1 - maxCols) /\
  (n - 1) / rows <= col <= 0.
Proof.
  intros Hn Hs Hd rows col.
  destruct (code_cols_top n Hn) as [Hc _].
  unfold maxCols, I64.max_signed in *.
  pose proof (Z.mod_pos_bound (mix src) n ltac:(lia)) as Hh.
  assert (rows = - 3037000500 \/ rows = 1 - 3037000500) as Hrows.
  { subst rows.
    pose proof (Z.div_mod (n + 3037000500 - 1 - 2 ^ 64) 3037000500
                  ltac:(lia)).
    pose proof (Z.mod_pos_bound (n + 3037000500 - 1 - 2 ^ 64) 3037000500
                  ltac:(lia)). lia. }
  assert (rows < 0) as Hneg by lia.
  pose proof (Z.div_mod (n - 1) rows ltac:(lia)) as Hdm.
  pose proof (Z.mod_neg_bound (n - 1) rows Hneg) as Hmb.
  assert (rows_of n 3037000500 = rows) as Hrows_of.
  { unfold rows_of, I64.sub, I64.add.
    replace (I64.wrap (n + 3037000500) - 1)
      with (I64.wrap (n + 3037000500) + -1) by lia.
    rewrite wrap_wrap_add_l, wrap_high by lia.
    unfold I64.floordiv. destruct (Z.eqb_spec 3037000500 0); [lia |].
    replace (n + 3037000500 + -1 - 2 ^ 64)
      with (n + 3037000500 - 1 - 2 ^ 64) by lia.
    fold rows. apply wrap_id. i64_range. }
  assert ((n - 1) / rows <= col <= 0) as Hcol.
  { subst col. split.
    - apply div_neg_antitone; lia.
    - rewrite <- (Z.div_0_l rows) by lia. apply div_neg_antitone; lia. }
  assert (- 2 ^ 33 <= (n - 1) / rows) as Hlow
    by (destruct Hrows as [Hr | Hr]; rewrite Hr in *; lia).
  assert (I64.floordiv (I64.rem (mix src) n) rows = col) as Hcode.
  { rewrite (rem_pos _ n) by lia.
    unfold I64.floordiv. destruct (Z.eqb_spec rows 0); [lia |].
    fold col. apply wrap_id. i64_range. }
  do 2 (split; [done |]). split; [| done].
  unfold new2d.
  rewrite (np_int64_in_range src Hs), (np_int64_in_range dst Hd), Hc.
  rewrite (np_int64_in_range n) by i64_range. cbn [bind].
  rewrite Hrows_of, Hcode.
  unfold I64.sub at 1. rewrite (wrap_id (3037000500 - 1)) by i64_range.
  destruct (Z.ltb_spec col (3037000500 - 1)); [| lia].
  unfold I64.rem. destruct (Z.eqb_spec rows 0); [lia |].
  by rewrite add_mul_wrap.
Qed.

(** The shape of [new2d] for every [numParts] from 1 to [2^63 - 1]: the
    partition is [col * rows + row] in 64 bits, [col] a function of the
    source, among [J + 1] values, and [row] among [|rows|] values; [rows]
    and [col] are positive ([sigma = 1]) while [numParts + cols - 1] fits in
    64 bits and negative ([sigma = -1]) beyond. *)
Lemma new2d_shape n :
  1 <= n <= I64.max_signed ->
  exists (sigma rows J : Z) (rowOf : Z -> Z -> Z),
    (sigma = 1 \/ sigma = -1) /\
    new2d_rows n = Ok rows /\ 0 < sigma * rows /\ 0 <= J /\
    sigma * rows + J <= 2 * ceil_sqrt n /\
    forall src, I64.in_range src ->
      exists col,
        new2d_col src n = Ok col /\ 0 <= sigma * col <= J /\
        forall dst, I64.in_range dst ->
          new2d src dst n = Ok (I64.add (I64.mul col rows) (rowOf col dst)) /\
          0 <= sigma * rowOf col dst < sigma * rows.
Proof.
  intros Hn.
  destruct (code_cols n Hn) as (c & Hc & Hc1 & Hle & Hlt).
  destruct (Z.le_gt_cases (n + c - 1) I64.max_signed) as [Hfit | Hwrap].
  - (* no operation wraps *)
    set (r := (n + c - 1) / c).
    destruct (ceil_div_spec n c ltac:(lia) ltac:(lia)) as (Hr1 & _ & _).
    fold r in Hr1.
    destruct (grid_within_ceiling n c ltac:(lia) ltac:(lia)
                (cols_choice n c ltac:(lia) ltac:(lia) Hle Hlt)) as [Hr HJ].
    fold r in Hr, HJ.
    destruct (geometry_fits n c ltac:(lia) Hc1 Hfit) as [Hrows _].
    fold r in Hrows.
    exists 1, r, ((n - 1) / r),
      (fun col dst =>
         mix dst mod (if col <? c - 1 then r else n - r * (c - 1))).
    split; [by left |]. split.
    { unfold new2d_rows. rewrite Hc. cbn [bind].
      rewrite (np_int64_in_range n) by i64_range. cbn [bind].
      by rewrite Hrows. }
    split; [lia |]. split; [apply Z.div_pos; lia |]. split; [lia |].
    intros src Hs. exists ((mix src mod n) / r).
    destruct (new2d_nowrap src 0 n c ltac:(lia) Hc Hc1 Hfit Hs
                ltac:(i64_range)) as (Hcode & _ & _ & Hcol).
    fold r in Hcode, Hcol. split.
    { unfold new2d_col, new2d_rows.
      rewrite (np_int64_in_range src Hs), Hc. cbn [bind].
      rewrite (np_int64_in_range n) by i64_range. cbn [bind].
      by rewrite Hrows, Hcode. }
    split; [lia |]. intros dst Hd.
    destruct (new2d_nowrap src dst n c ltac:(lia) Hc Hc1 Hfit Hs Hd)
      as (_ & Heq & HM & _).
    fold r in Heq, HM. rewrite add_mul_wrap. split; [exact Heq |].
    match goal with |- 0 <= 1 * (_ mod ?M) < _ =>
      pose proof (Z.mod_pos_bound (mix dst) M ltac:(lia)) end. lia.
  - (* [numParts + cols - 1] wraps *)
    assert (2 ^ 63 - maxCols < n <= I64.max_signed) as Htop.
    { destruct (ceil_sqrt_spec n ltac:(lia)) as (HC1 & HClo & _).
      unfold maxCols, I64.max_signed in *.
      assert (ceil_sqrt n - 1 < 3037000500)
        by (apply Z.square_lt_simpl_nonneg; lia).
      lia. }
    destruct (code_cols_top n Htop) as [HcK HCK].
    set (rows := (n + maxCols - 1 - 2 ^ 64) / maxCols).
    destruct (new2d_wrapped 0 0 n Htop ltac:(i64_range) ltac:(i64_range))
      as (Hrows & _ & _ & Hrv & _). fold rows in Hrows, Hrv.
    assert (rows < 0) as Hneg by (unfold maxCols in *; lia).
    exists (-1), rows, (- ((n - 1) / rows)), (fun _ dst => mix dst mod rows).
    split; [by right |]. split.
    { unfold new2d_rows. rewrite HcK. cbn [bind].
      rewrite (np_int64_in_range n) by i64_range. cbn [bind].
      by rewrite Hrows. }
    split; [lia |].
    pose proof (Z.div_mod (n - 1) rows ltac:(lia)) as Hdm.
    pose proof (Z.mod_neg_bound (n - 1) rows Hneg) as Hmb.
    split.
    { unfold maxCols, I64.max_signed in *.
      destruct Hrv as [Hr | Hr]; rewrite Hr in *; lia. }
    split.
    { rewrite HCK. unfold maxCols, I64.max_signed in *.
      destruct Hrv as [Hr | Hr]; rewrite Hr in *; lia. }
    intros src Hs. exists ((mix src mod n) / rows).
    destruct (new2d_wrapped src 0 n Htop Hs ltac:(i64_range))
      as (_ & Hcode & _ & _ & Hcol). fold rows in Hcode, Hcol. split.
    { unfold new2d_col, new2d_rows.
      rewrite (np_int64_in_range src Hs), HcK. cbn [bind].
      rewrite (np_int64_in_range n) by i64_range. cbn [bind].
      by rewrite Hrows, Hcode. }
    split; [lia |]. intros dst Hd.
    destruct (new2d_wrapped src dst n Htop Hs Hd) as (_ & _ & Heq & _).
    fold rows in Heq. rewrite add_mul_wrap. split; [exact Heq |].
    pose proof (Z.mod_neg_bound (mix dst) rows Hneg). lia.
Qed.

(** ** Ranges *)

Lemma new2d_range src dst n :
  valid_numParts n -> I64.in_range src -> I64.in_range dst ->
  exists p, new2d src dst n = Ok p /\ 0 <= p < n.
Proof.
  intros Hn Hs Hd. eexists. split; [by apply new2d_eq |].
  apply grid_index_bounds; [done | by apply newCol_bounds | by apply newRow_bounds].
Qed.

Lemma old2d_range src dst n :
  valid_numParts n -> I64.in_range src -> I64.in_range dst ->
  exists p, old2d src dst n = Ok p /\ 0 <= p < n.
Proof.
  intros Hn Hs Hd. eexists. split; [by apply old2d_eq |].
  apply Z.mod_pos_bound. apply valid_numParts_pos in Hn. lia.
Qed.

(** [old2d] ends with a remainder by [numParts], so its result is in range
    whatever the earlier operations wrapped to. *)
Lemma old2d_int64 src dst n :
  1 <= n <= I64.max_signed -> I64.in_range src -> I64.in_range dst ->
  exists c,
    math_ceil_sqrt n = Ok c /\ 1 <= c /\
    old2d src dst n =
      Ok (I64.add (I64.mul (mix src mod c) c) (mix dst mod c) mod n).
Proof.
  intros Hn Hs Hd. destruct (math_ceil_sqrt_int64 n Hn) as (c & Hc & Hc1).
  exists c. split; [done |]. split; [lia |]. unfold old2d.
  rewrite (np_int64_in_range src Hs), (np_int64_in_range dst Hd), Hc.
  rewrite (np_int64_in_range n) by i64_range. cbn [bind].
  rewrite !(rem_pos _ c) by lia. rewrite rem_pos by lia. reflexivity.
Qed.

(** A call that returns had arguments in the 64-bit range. *)
Lemma new2d_Ok_inv src dst n p :
  valid_numParts n -> new2d src dst n = Ok p ->
  p = newCol src n * gridRows n + newRow dst n (newCol src n).
Proof.
  intros Hn Hp.
  destruct (decide (I64.in_range src)) as [Hs | Hs];
    [| unfold new2d in Hp; by rewrite (np_int64_out_of_range _ Hs) in Hp].
  destruct (decide (I64.in_range dst)) as [Hd | Hd].
  - rewrite new2d_eq in Hp by done. congruence.
  - unfold new2d in Hp.
    by rewrite (np_int64_in_range _ Hs), (np_int64_out_of_range _ Hd) in Hp.
Qed.

Lemma old2d_Ok_inv src dst n p :
  valid_numParts n -> old2d src dst n = Ok p ->
  p = (oldCol src n * ceil_sqrt n + oldRow dst n) mod n.
Proof.
  intros Hn Hp.
  destruct (decide (I64.in_range src)) as [Hs | Hs];
    [| unfold old2d in Hp; by rewrite (np_int64_out_of_range _ Hs) in Hp].
  destruct (decide (I64.in_range dst)) as [Hd | Hd].
  - rewrite old2d_eq in Hp by done. congruence.
  - unfold old2d in Hp.
    by rewrite (np_int64_in_range _ Hs), (np_int64_out_of_range _ Hd) in Hp.
Qed.

(** [new2d] is in range as long as [numParts + cols - 1] fits in 64 bits,
    which it does up to [2^63 - maxCols]. *)
Lemma new2d_range_fits src dst n :
  1 <= n <= 2 ^ 63 - maxCols -> I64.in_range src -> I64.in_range dst ->
  exists p, new2d src dst n = Ok p /\ 0 <= p < n.
Proof.
  intros Hn Hs Hd.
  assert (1 <= n <= I64.max_signed) as Hn'
    by (unfold maxCols, I64.max_signed in *; lia).
  destruct (code_cols n Hn') as (c & Hc & Hc1 & Hle & Hlt).
  pose proof (ceil_sqrt_le_maxCols n Hn') as HK.
  assert (n + c - 1 <= I64.max_signed) as Hfit
    by (unfold maxCols, I64.max_signed in *; lia).
  destruct (new2d_nowrap src dst n c ltac:(lia) Hc Hc1 Hfit Hs Hd)
    as (_ & Heq & HM & Hcol).
  pose proof (grid_last_column n c ltac:(lia) ltac:(lia)
                (cols_choice n c ltac:(lia) ltac:(lia) Hle Hlt)) as Hlast.
  destruct (ceil_div_spec n c ltac:(lia) ltac:(lia)) as (Hr1 & Hrlo & Hrhi).
  set (r := (n + c - 1) / c) in *.
  set (col := (mix src mod n) / r) in *.
  set (M := if col <? c - 1 then r else n - r * (c - 1)) in *.
  pose proof (Z.mod_pos_bound (mix dst) M ltac:(lia)) as Hrow.
  assert (col <= c - 1) as Hcolc.
  { assert ((n - 1) / r < c); [| lia].
    apply Z.div_lt_upper_bound; lia. }
  assert (0 <= col * r + mix dst mod M < n) as Hp.
  { split; [nia |]. subst M.
    destruct (Z.ltb_spec col (c - 1)) as [Hlt' | Hge].
    - assert ((col + 1) * r <= (c - 1) * r)
        by (apply Z.mul_le_mono_nonneg_r; lia). lia.
    - replace col with (c - 1) in * by lia. lia. }
  eexists. split; [exact Heq |]. rewrite wrap_id; [exact Hp |].
  unfold I64.max_signed in *. i64_range.
Qed.

(** Beyond [2^63 - maxCols] the code's [rows] is negative, and so is the
    partition of the edge from vertex 0 to the vertex whose scrambled ID
    is 1. *)
Lemma new2d_negative_beyond n :
  2 ^ 63 - maxCols < n <= I64.max_signed ->
  exists rows,
    new2d_rows n = Ok rows /\ rows < -1 /\
    new2d 0 (unmix 1) n = Ok (rows + 1).
Proof.
  intros Hn.
  assert (1 <= n) as Hn1 by (unfold maxCols in *; lia).
  assert (I64.in_range (unmix 1)) as Hu by apply wrap_in_range.
  destruct (new2d_wrapped 0 (unmix 1) n Hn ltac:(i64_range) Hu)
    as (Hrows & _ & Heq & Hrv & _).
  destruct (code_cols_top n Hn) as [HcK _].
  set (rows := (n + maxCols - 1 - 2 ^ 64) / maxCols) in *. clearbody rows.
  assert (rows < -1) as Hneg by (unfold maxCols in *; lia).
  exists rows. split.
  { unfold new2d_rows. rewrite HcK. cbn [bind].
    rewrite (np_int64_in_range n) by (unfold maxCols in *; i64_range).
    cbn [bind]. by rewrite Hrows. }
  split; [exact Hneg |]. rewrite Heq. f_equal.
  rewrite mix_unmix by (unfold I64.max_signed; lia).
  assert (mix 0 mod n / rows = 0) as ->.
  { replace (mix 0) with 0 by reflexivity.
    rewrite Z.mod_0_l by lia. apply Z.div_0_l. lia. }
  assert (1 mod rows = rows + 1) as ->.
  { symmetry. apply (Z.mod_unique_neg 1 rows (-1)); lia. }
  rewrite Z.mul_0_l, Z.add_0_l. apply wrap_id.
  unfold maxCols in *. i64_range.
Qed.

(** ** Counting *)

Lemma size_list_to_set_le (l : list Z) :
  (size (list_to_set l : gset Z) <= length l)%nat.
Proof.
  induction l as [| x l IH].
  - rewrite list_to_set_nil, size_empty. done.
  - rewrite list_to_set_cons, size_union_alt, size_singleton. simpl.
    assert (list_to_set l ∖ {[x]} ⊆ (list_to_set l : gset Z)) as Hsub.
    { intros y Hy. apply elem_of_difference in Hy. tauto. }
    apply subseteq_size in Hsub. lia.
Qed.

(** A set all of whose elements are among [g 0, ..., g (k - 1)] has at most
    [k] elements. *)
Lemma size_indexed_le (X : gset Z) (g : Z -> Z) (k : Z) :
  (forall y, y ∈ X -> exists i, 0 <= i < k /\ y = g i) ->
  (size X <= Z.to_nat k)%nat.
Proof.
  intros HX.
  assert (X ⊆ list_to_set (g <$> seqZ 0 k)) as Hsub.
  { intros y Hy. destruct (HX y Hy) as (i & Hi & ->).
    apply elem_of_list_to_set, list_elem_of_fmap_2, elem_of_seqZ. lia. }
  apply subseteq_size in Hsub.
  pose proof (size_list_to_set_le (g <$> seqZ 0 k)) as Hle.
  rewrite length_fmap, length_seqZ in Hle. lia.
Qed.

Lemma size_union_le (X Y : gset Z) :
  (size (X ∪ Y) <= size X + size Y)%nat.
Proof.
  rewrite size_union_alt.
  assert (Y ∖ X ⊆ Y) as Hsub.
  { intros y Hy. apply elem_of_difference in Hy. tauto. }
  apply subseteq_size in Hsub. lia.
Qed.

Lemma count_floordiv (rows c : Z) (m : nat) :
  1 <= rows -> 0 <= c -> Z.of_nat m <= I64.max_signed ->
  length (filter (fun h => I64.floordiv h rows = c) (seqZ 0 (Z.of_nat m))) =
    Z.to_nat (Z.min (Z.of_nat m) ((c + 1) * rows) - c * rows).
Proof.
  intros Hr Hc. induction m as [| m IH]; intros Hm.
  - simpl. nia.
  - rewrite seqZ_S, filter_app, length_app, IH by lia. clear IH.
    rewrite Z.add_0_l.
    assert (I64.floordiv (Z.of_nat m) rows = Z.of_nat m / rows) as Hdiv
      by (apply floordiv_small; lia).
    pose proof (Z.div_mod (Z.of_nat m) rows ltac:(lia)) as Hdm.
    pose proof (Z.mod_pos_bound (Z.of_nat m) rows ltac:(lia)) as Hmod.
    rewrite filter_cons, filter_nil. rewrite Hdiv.
    set (q := Z.of_nat m / rows) in *. set (k := Z.of_nat m) in *.
    replace (Z.of_nat (S m)) with (k + 1) by lia.
    destruct (decide (q = c)) as [-> | Hne]; simpl.
    + nia.
    + destruct (Z.lt_ge_cases q c); nia.
Qed.

(** *** The partitions of one vertex *)

Lemma size_two_families (X : gset Z) (gA gB : Z -> Z) (ka kb j0 : Z) :
  0 <= ka -> 0 <= j0 < kb ->
  (forall y, y ∈ X ->
     (exists i, 0 <= i < ka /\ y = gA i) \/
     (exists j, 0 <= j < kb /\ j <> j0 /\ y = gB j)) ->
  Z.of_nat (size X) <= ka + kb - 1.
Proof.
  intros Hka Hj0 HX.
  set (l := (gA <$> seqZ 0 ka) ++
            (gB <$> (seqZ 0 j0 ++ seqZ (j0 + 1) (kb - j0 - 1)))).
  assert (X ⊆ list_to_set l) as Hsub.
  { intros y Hy. apply elem_of_list_to_set. subst l. apply elem_of_app.
    destruct (HX y Hy) as [(i & Hi & ->) | (j & Hj & Hne & ->)].
    - left. apply list_elem_of_fmap_2, elem_of_seqZ. lia.
    - right. apply list_elem_of_fmap_2, elem_of_app.
      destruct (Z.lt_ge_cases j j0); [left | right];
        apply elem_of_seqZ; lia. }
  apply subseteq_size in Hsub.
  pose proof (size_list_to_set_le l) as Hle. subst l.
  rewrite length_app, !length_fmap, length_app, !length_seqZ in Hle. lia.
Qed.

Lemma outEdges_nil f v n dsts :
  (forall d p, f v d n <> Ok p) -> outEdges f v n dsts = [].
Proof.
  intros Hf. unfold outEdges. induction dsts as [| d dsts IH]; [done |].
  cbn [omap list_omap]. destruct (f v d n) as [p |] eqn:Hp; [| exact IH].
  by destruct (Hf d p).
Qed.

Lemma inEdges_nil f v n srcs :
  (forall s p, f s v n <> Ok p) -> inEdges f v n srcs = [].
Proof.
  intros Hf. unfold inEdges. induction srcs as [| s srcs IH]; [done |].
  cbn [omap list_omap]. destruct (f s v n) as [p |] eqn:Hp; [| exact IH].
  by destruct (Hf s p).
Qed.

Lemma elem_of_outEdges f v n dsts y :
  y ∈ outEdges f v n dsts -> exists d, f v d n = Ok y.
Proof.
  intros Hy. apply list_elem_of_omap in Hy as (d & _ & Hd).
  exists d. destruct (f v d n); [| discriminate]. by injection Hd as ->.
Qed.

Lemma elem_of_inEdges f v n srcs y :
  y ∈ inEdges f v n srcs -> exists s, f s v n = Ok y.
Proof.
  intros Hy. apply list_elem_of_omap in Hy as (s & _ & Hs).
  exists s. destruct (f s v n); [| discriminate]. by injection Hs as ->.
Qed.

Lemma elem_of_replicas f v n dsts srcs y :
  y ∈ replicas f v n dsts srcs ->
  (exists d, f v d n = Ok y) \/ (exists s, f s v n = Ok y).
Proof.
  intros Hy. unfold replicas in Hy.
  apply elem_of_list_to_set, elem_of_app in Hy as [Hy | Hy];
    [left; by eapply elem_of_outEdges | right; by eapply elem_of_inEdges].
Qed.

Lemma size_no_element (X : gset Z) :
  (forall y, y ∈ X -> False) -> Z.of_nat (size X) <= 0.
Proof.
  intros HX. pose proof (size_indexed_le X (fun i => i) 0) as Hle.
  assert (size X <= Z.to_nat 0)%nat; [| lia].
  apply Hle. intros y Hy. destruct (HX y Hy).
Qed.

Lemma replicas_new2d_le v n dsts srcs :
  1 <= n -> Z.of_nat (size (replicas new2d v n dsts srcs)) <= 2 * ceil_sqrt n.
Proof.
  intros Hn. destruct (ceil_sqrt_spec n Hn) as (HC1 & _).
  destruct (decide (I64.in_range n /\ I64.in_range v)) as [[Hr Hv] | Hout].
  2:{ etransitivity; [apply size_no_element | lia].
      intros y Hy. apply Hout.
      apply elem_of_replicas in Hy as [[a Ha] | [a Ha]];
        pose proof (new2d_Ok_numParts _ _ _ _ Ha);
        apply new2d_Ok_args in Ha; tauto. }
  destruct (new2d_shape n ltac:(i64_range))
    as (sigma & rows & J & rowOf & Hsig & _ & Hrows & HJ & Hsum & Hshape).
  destruct (Hshape v Hv) as (colv & _ & Hcolv & Hout).
  assert (sigma * sigma = 1) as Hss by (destruct Hsig as [-> | ->]; lia).
  etransitivity; [| exact Hsum].
  replace (sigma * rows + J) with (sigma * rows + (J + 1) - 1) by lia.
  apply (size_two_families _
           (fun i => I64.add (I64.mul colv rows) (sigma * i))
           (fun j => I64.add (I64.mul (sigma * j) rows)
                       (rowOf (sigma * j) v))
           _ _ (sigma * colv)); [lia | lia |].
  intros y Hy. apply elem_of_replicas in Hy as [[a Ha] | [a Ha]].
  - (* an out-edge *)
    destruct (new2d_Ok_args _ _ _ _ Ha) as [_ Har].
    destruct (Hout a Har) as [Heq Hrow]. rewrite Heq in Ha.
    injection Ha as <-. left. exists (sigma * rowOf colv a).
    split; [lia |]. f_equal.
    rewrite Z.mul_assoc, Hss. lia.
  - (* an in-edge *)
    destruct (new2d_Ok_args _ _ _ _ Ha) as [Har _].
    destruct (Hshape a Har) as (cola & _ & Hcola & Hin).
    destruct (Hin v Hv) as [Heq Hrow]. rewrite Heq in Ha. injection Ha as <-.
    assert (sigma * (sigma * cola) = cola) as Hback
      by (rewrite Z.mul_assoc, Hss; lia).
    destruct (Z.eq_dec cola colv) as [-> | Hne].
    + left. exists (sigma * rowOf colv v). split; [lia |]. f_equal.
      rewrite Z.mul_assoc, Hss. lia.
    + right. exists (sigma * cola). split; [lia |].
      split; [destruct Hsig as [-> | ->]; lia |]. by rewrite Hback.
Qed.

Lemma replicas_old2d_le v n dsts srcs :
  1 <= n -> Z.of_nat (size (replicas old2d v n dsts srcs)) <= 2 * ceil_sqrt n.
Proof.
  intros Hn. destruct (ceil_sqrt_spec n Hn) as (HC1 & _).
  destruct (decide (I64.in_range n /\ I64.in_range v)) as [[Hr Hv] | Hout].
  2:{ etransitivity; [apply size_no_element | lia].
      intros y Hy. apply Hout.
      apply elem_of_replicas in Hy as [[a Ha] | [a Ha]];
        pose proof (old2d_Ok_numParts _ _ _ _ Ha);
        apply old2d_Ok_args in Ha; tauto. }
  assert (1 <= n <= I64.max_signed) as Hn' by i64_range.
  destruct (code_cols n Hn') as (c & Hc & Hc1 & Hle & _).
  assert (forall src dst, I64.in_range src -> I64.in_range dst ->
            old2d src dst n =
              Ok (I64.add (I64.mul (mix src mod c) c) (mix dst mod c) mod n))
    as Hold.
  { intros src dst Hs Hd.
    destruct (old2d_int64 src dst n Hn' Hs Hd) as (c' & Hc' & _ & Heq).
    rewrite Hc in Hc'. by injection Hc' as <-. }
  pose proof (Z.mod_pos_bound (mix v) c ltac:(lia)) as Hmv.
  transitivity (c + c - 1); [| lia].
  apply (size_two_families _
           (fun i => I64.add (I64.mul (mix v mod c) c) i mod n)
           (fun j => I64.add (I64.mul j c) (mix v mod c) mod n)
           _ _ (mix v mod c)); [lia | lia |].
  intros y Hy. apply elem_of_replicas in Hy as [[a Ha] | [a Ha]].
  - destruct (old2d_Ok_args _ _ _ _ Ha) as [_ Har].
    rewrite (Hold v a Hv Har) in Ha. injection Ha as <-.
    left. exists (mix a mod c). split; [| done].
    apply Z.mod_pos_bound. lia.
  - destruct (old2d_Ok_args _ _ _ _ Ha) as [Har _].
    rewrite (Hold a v Har Hv) in Ha. injection Ha as <-.
    pose proof (Z.mod_pos_bound (mix a) c ltac:(lia)).
    destruct (Z.eq_dec (mix a mod c) (mix v mod c)) as [Heq | Hne].
    + left. exists (mix v mod c). split; [lia |]. by rewrite Heq.
    + right. exists (mix a mod c). done.
Qed.

Lemma out_edges_one_column v n dsts :
  1 <= n ->
  match new2d_col v n, new2d_rows n with
  | Ok col, Ok rows =>
      Z.of_nat (size (list_to_set (outEdges new2d v n dsts) : gset Z))
        <= Z.abs rows /\
      Forall (fun y => exists row,
                Z.abs row < Z.abs rows /\
                y = I64.add (I64.mul col rows) row)
        (outEdges new2d v n dsts)
  | _, _ => outEdges new2d v n dsts = []
  end.
Proof.
  intros Hn.
  destruct (decide (I64.in_range n /\ I64.in_range v)) as [[Hr Hv] | Hout].
  2:{ assert (outEdges new2d v n dsts = []) as Hnil.
      { apply outEdges_nil. intros d p Hp. apply Hout.
        pose proof (new2d_Ok_numParts _ _ _ _ Hp).
        apply new2d_Ok_args in Hp. tauto. }
      destruct (new2d_col v n) as [col |] eqn:Hcol; [| done].
      destruct (new2d_rows n) as [rows |] eqn:Hrows; [| done].
      exfalso. apply Hout. split; [by eapply new2d_rows_Ok_numParts |].
      unfold new2d_col in Hcol.
      destruct (decide (I64.in_range v)) as [| Hv]; [done |].
      by rewrite (np_int64_out_of_range _ Hv) in Hcol. }
  destruct (new2d_shape n ltac:(i64_range))
    as (sigma & rows & J & rowOf & Hsig & Hrows & Hpos & HJ & _ & Hshape).
  destruct (Hshape v Hv) as (colv & Hcol & _ & Hout).
  rewrite Hcol, Hrows.
  assert (sigma * sigma = 1) as Hss by (destruct Hsig as [-> | ->]; lia).
  split.
  - transitivity (Z.of_nat (Z.to_nat (sigma * rows)));
      [| destruct Hsig as [-> | ->]; lia].
    apply inj_le.
    apply (size_indexed_le _
             (fun i => I64.add (I64.mul colv rows) (sigma * i))).
    intros y Hy. apply elem_of_list_to_set, elem_of_outEdges in Hy as [d Hd].
    destruct (new2d_Ok_args _ _ _ _ Hd) as [_ Hdr].
    destruct (Hout d Hdr) as [Heq Hrow]. rewrite Heq in Hd.
    injection Hd as <-. exists (sigma * rowOf colv d).
    split; [lia |]. f_equal. rewrite Z.mul_assoc, Hss. lia.
  - apply Forall_forall. intros y Hy.
    apply elem_of_outEdges in Hy as [d Hd].
    destruct (new2d_Ok_args _ _ _ _ Hd) as [_ Hdr].
    destruct (Hout d Hdr) as [Heq Hrow]. rewrite Heq in Hd.
    injection Hd as <-. exists (rowOf colv d).
    split; [destruct Hsig as [-> | ->]; lia | done].
Qed.

Lemma outEdges_fmap f v n (h g : Z -> Z) (l : list Z) :
  (forall i, i ∈ l -> f v (h i) n = Ok (g i)) ->
  outEdges f v n (h <$> l) = g <$> l.
Proof.
  unfold outEdges. induction l as [| i l IH]; intros Hf; [done |].
  cbn [fmap list_fmap omap list_omap].
  rewrite (Hf i) by apply list_elem_of_here. cbn [value].
  f_equal. apply IH. intros j Hj. apply Hf. by apply list_elem_of_further.
Qed.

(** With [numParts = 2^63 - 3037000500 + 1] the code's [rows] is
    [-3037000500], and the destinations [unmix 0], ..., [unmix (cols - 1)]
    send the out-edges of vertex 0 to [cols] different partitions. *)
Lemma out_edges_fill_column :
  let numParts := 2 ^ 63 - maxCols + 1 in
  Z.of_nat (size (list_to_set
                    (outEdges new2d 0 numParts (unmix <$> seqZ 0 maxCols))
                  : gset Z)) = maxCols.
Proof.
  intros numParts.
  assert (2 ^ 63 - maxCols < numParts <= I64.max_signed) as Htop
    by (unfold numParts, maxCols, I64.max_signed; lia).
  assert ((numParts + maxCols - 1 - 2 ^ 64) / maxCols = - maxCols) as Hrows
    by reflexivity.
  assert (mix 0 mod numParts / - maxCols = 0) as Hcol by reflexivity.
  rewrite (outEdges_fmap new2d 0 numParts unmix (fun i => i mod - maxCols)).
  2:{ intros i Hi. apply elem_of_seqZ in Hi.
      assert (I64.in_range (unmix i)) as Hu by apply wrap_in_range.
      destruct (new2d_wrapped 0 (unmix i) numParts Htop
                  ltac:(i64_range) Hu) as (_ & _ & Heq & _).
      rewrite Hrows, Hcol in Heq. rewrite Heq. f_equal.
      rewrite mix_unmix by (unfold maxCols, I64.max_signed in *; lia).
      pose proof (Z.mod_neg_bound i (- maxCols)
                    ltac:(unfold maxCols; lia)).
      rewrite Z.mul_0_l, Z.add_0_l. apply wrap_id.
      unfold maxCols in *. i64_range. }
  rewrite size_list_to_set.
  - rewrite length_fmap, length_seqZ. unfold maxCols. lia.
  - apply NoDup_fmap_2_strong; [| apply NoDup_seqZ].
    intros i j Hi Hj Heq.
    apply elem_of_seqZ in Hi. apply elem_of_seqZ in Hj.
    pose proof (Z.div_mod i (- maxCols) ltac:(unfold maxCols; lia)) as Hdi.
    pose proof (Z.div_mod j (- maxCols) ltac:(unfold maxCols; lia)) as Hdj.
    pose proof (Z.mod_neg_bound i (- maxCols)
                  ltac:(unfold maxCols; lia)) as Hbi.
    pose proof (Z.mod_neg_bound j (- maxCols)
                  ltac:(unfold maxCols; lia)) as Hbj.
    rewrite Heq in *. unfold maxCols in *. lia.
Qed.

(** * The specified properties *)

(** ** Range *)

(** C1, as stated, fails: with [numParts = 2^63 - 1] the sum
    [numParts + cols - 1] wraps, [rows] comes out negative and [new2d]
    returns a negative index. *)
Lemma range_invariant_fails_at_int64_max :
  ~ (forall src dst numParts,
       1 <= numParts -> I64.in_range src -> I64.in_range dst ->
       exists p, new2d src dst numParts = Ok p /\ 0 <= p < numParts).
Proof.
  intros H.
  destruct (H 8413641503852180518 0 (2 ^ 63 - 1)) as (p & Hp & Hrange);
    [lia | i64_range | i64_range |].
  vm_compute in Hp. injection Hp as <-. lia.
Qed.

(** C1, amended. Range invariant: for every [numParts] from 1 to
    [2^63 - 3037000500], the partition counts for which
    [numParts + cols - 1] fits in 64 bits, and all 64-bit [src] and [dst],
    [new2d] returns a partition index in [[0, numParts)], and so does
    [old2d] (on the perfect-square path in particular).  The scrambled ID
    may be negative (the minimum value is its own absolute value): the
    floored remainder by a positive modulus is still non-negative. *)
Theorem range_invariant src dst numParts :
  1 <= numParts <= 2 ^ 63 - maxCols ->
  I64.in_range src -> I64.in_range dst ->
  (exists p, new2d src dst numParts = Ok p /\ 0 <= p < numParts) /\
  (exists p, old2d src dst numParts = Ok p /\ 0 <= p < numParts).
Proof.
  intros Hn Hs Hd. split; [by apply new2d_range_fits |].
  assert (1 <= numParts <= I64.max_signed) as Hn'
    by (unfold maxCols, I64.max_signed in *; lia).
  destruct (old2d_int64 src dst numParts Hn' Hs Hd) as (c & _ & _ & Hold).
  eexists. split; [exact Hold |]. apply Z.mod_pos_bound. lia.
Qed.

Lemma range_invariant_witness :
  1 <= 2 ^ 63 - maxCols <= 2 ^ 63 - maxCols /\
  I64.in_range I64.min_signed /\ I64.in_range 7 /\
  (exists p, new2d I64.min_signed 7 (2 ^ 63 - maxCols) = Ok p /\
             0 <= p < 2 ^ 63 - maxCols) /\
  (exists p, old2d I64.min_signed 7 (2 ^ 63 - maxCols) = Ok p /\
             0 <= p < 2 ^ 63 - maxCols).
Proof.
  assert (1 <= 2 ^ 63 - maxCols <= 2 ^ 63 - maxCols) as Hn
    by (unfold maxCols; lia).
  assert (I64.in_range I64.min_signed) as Hs by i64_range.
  assert (I64.in_range 7) as Hd by i64_range.
  split; [exact Hn |]. split; [exact Hs |]. split; [exact Hd |].
  exact (range_invariant I64.min_signed 7 (2 ^ 63 - maxCols) Hn Hs Hd).
Defined.

(** C10, as stated, fails: a [numParts] that does not fit in 64 bits cannot
    meet the [np.int64] operand of the final remainder, and [old2d] raises
    [OverflowError]. *)
Lemma old2d_not_total_beyond_int64 :
  ~ (forall src dst numParts,
       1 <= numParts -> I64.in_range src -> I64.in_range dst ->
       exists p, old2d src dst numParts = Ok p /\ 0 <= p < numParts).
Proof.
  intros H.
  destruct (H 1 1 (2 ^ 63)) as (p & Hp & _); [lia | i64_range | i64_range |].
  vm_compute in Hp. discriminate Hp.
Qed.

(** C10, amended. The original algorithm is total and in range for every
    [numParts] from 1 to [2^63 - 1], perfect square or not: its result is
    [(col * ceilSqrt + row) % numParts], computed on [np.int64], which the
    final remainder brings into [[0, numParts)] even where the product
    wraps. *)
Theorem old2d_total_in_range src dst numParts :
  1 <= numParts <= I64.max_signed -> I64.in_range src -> I64.in_range dst ->
  exists ceilSqrtNumParts p,
    math_ceil_sqrt numParts = Ok ceilSqrtNumParts /\
    old2d src dst numParts = Ok p /\
    p = I64.add (I64.mul (mix src mod ceilSqrtNumParts) ceilSqrtNumParts)
                (mix dst mod ceilSqrtNumParts) mod numParts /\
    0 <= p < numParts.
Proof.
  intros Hn Hs Hd.
  destruct (old2d_int64 src dst numParts Hn Hs Hd) as (c & Hc & Hc1 & Hold).
  eexists c, _. split; [exact Hc |]. split; [exact Hold |].
  split; [reflexivity |]. apply Z.mod_pos_bound. lia.
Qed.

Lemma old2d_total_in_range_witness :
  1 <= 2 ^ 63 - 1 <= I64.max_signed /\ I64.in_range 3 /\ I64.in_range (-5) /\
  exists ceilSqrtNumParts p,
    math_ceil_sqrt (2 ^ 63 - 1) = Ok ceilSqrtNumParts /\
    old2d 3 (-5) (2 ^ 63 - 1) = Ok p /\
    p = I64.add (I64.mul (mix 3 mod ceilSqrtNumParts) ceilSqrtNumParts)
                (mix (-5) mod ceilSqrtNumParts) mod (2 ^ 63 - 1) /\
    0 <= p < 2 ^ 63 - 1.
Proof.
  assert (1 <= 2 ^ 63 - 1 <= I64.max_signed) as Hn
    by (unfold I64.max_signed; lia).
  assert (I64.in_range 3) as Hs by i64_range.
  assert (I64.in_range (-5)) as Hd by i64_range.
  split; [exact Hn |]. split; [exact Hs |]. split; [exact Hd |].
  exact (old2d_total_in_range 3 (-5) (2 ^ 63 - 1) Hn Hs Hd).
Defined.

(** C8. Single partition: with [numParts = 1] both functions return 0 for
    every 64-bit [x] and [y]. *)
Theorem single_partition x y :
  I64.in_range x -> I64.in_range y ->
  old2d x y 1 = Ok 0 /\ new2d x y 1 = Ok 0.
Proof.
  intros Hx Hy.
  assert (valid_numParts 1) as Hn by (unfold valid_numParts, maxNumParts; lia).
  destruct (old2d_range x y 1 Hn Hx Hy) as (p & -> & Hp).
  destruct (new2d_range x y 1 Hn Hx Hy) as (q & -> & Hq).
  split; f_equal; lia.
Qed.

Lemma single_partition_witness :
  I64.in_range 42 /\ I64.in_range I64.max_signed /\
  old2d 42 I64.max_signed 1 = Ok 0 /\ new2d 42 I64.max_signed 1 = Ok 0.
Proof.
  assert (I64.in_range 42) as Hx by i64_range.
  assert (I64.in_range I64.max_signed) as Hy by i64_range.
  split; [exact Hx |]. split; [exact Hy |].
  exact (single_partition 42 I64.max_signed Hx Hy).
Defined.

(** C6. The minimum 64-bit value: its product with the mixing prime wraps to
    the minimum value, whose absolute value wraps to itself and is negative;
    with [numParts = 4] no call raises and each returns an index in
    [[0, 4)]. *)
Theorem int64_min_scenario :
  I64.mul I64.min_signed mixingPrime = I64.min_signed /\
  I64.abs I64.min_signed = I64.min_signed /\
  mix I64.min_signed < 0 /\
  (exists p, old2d I64.min_signed I64.min_signed 4 = Ok p /\ 0 <= p < 4) /\
  (exists p, new2d I64.min_signed I64.min_signed 4 = Ok p /\ 0 <= p < 4) /\
  (exists p, getPartition I64.min_signed I64.min_signed 4 = Ok p /\ 0 <= p < 4).
Proof.
  split; [reflexivity |]. split; [reflexivity |]. split; [reflexivity |].
  repeat split; exists 0; (split; [reflexivity | lia]).
Qed.

(** ** The perfect-square path *)

(** C2, as stated, fails: on the perfect square 4 the new method sends the
    edge [(1, 0)] to partition 0 and the old one to partition 2. *)
Lemma new2d_differs_from_old2d_on_square :
  ~ (forall src dst numParts,
       1 <= numParts <= I64.max_signed ->
       I64.in_range src -> I64.in_range dst ->
       perfect_square numParts ->
       new2d src dst numParts = old2d src dst numParts).
Proof.
  intros H.
  assert (new2d 1 0 4 = old2d 1 0 4) as Heq.
  { apply H; [i64_range | i64_range | i64_range | reflexivity]. }
  vm_compute in Heq. discriminate Heq.
Qed.

(** C2, amended. On a perfect square that fits in 64 bits the old method
    returns [col * ceilSqrt + row] with [col] and [row] the scrambled IDs
    modulo [ceilSqrt] (the final remainder changes nothing there).  The new
    method lays out a [ceilSqrt] by [ceilSqrt] grid with the same row, but
    its column is the quotient of the source residue modulo [numParts] by
    [ceilSqrt], not the residue modulo [ceilSqrt]: the two methods differ,
    which is why the proposal keeps the old one for perfect squares. *)
Theorem perfect_square_fast_path src dst numParts :
  1 <= numParts <= I64.max_signed ->
  I64.in_range src -> I64.in_range dst ->
  perfect_square numParts ->
  old2d src dst numParts =
    Ok ((oldCol src numParts * ceil_sqrt numParts + oldRow dst numParts)
          mod numParts) /\
  (oldCol src numParts * ceil_sqrt numParts + oldRow dst numParts) mod numParts =
    oldCol src numParts * ceil_sqrt numParts + oldRow dst numParts /\
  new2d src dst numParts =
    Ok ((mix src mod numParts) / ceil_sqrt numParts * ceil_sqrt numParts
        + oldRow dst numParts).
Proof.
  intros Hn Hs Hd Hsq.
  destruct (code_cols_square numParts Hn Hsq) as (Hc & Hc1 & Hfit).
  unfold perfect_square in Hsq. unfold oldCol, oldRow.
  set (c := ceil_sqrt numParts) in *.
  pose proof (Z.mod_pos_bound (mix src) c ltac:(lia)) as Hcol.
  pose proof (Z.mod_pos_bound (mix dst) c ltac:(lia)) as Hrow.
  assert (0 <= mix src mod c * c + mix dst mod c < numParts) as Hp.
  { split; [nia |].
    assert ((mix src mod c + 1) * c <= c * c)
      by (apply Z.mul_le_mono_nonneg_r; lia). lia. }
  split.
  { destruct (old2d_int64 src dst numParts Hn Hs Hd) as (c' & Hc' & _ & Hold).
    rewrite Hc in Hc'. injection Hc' as <-. rewrite Hold.
    rewrite add_mul_wrap, wrap_id; [done |].
    unfold I64.max_signed in *. i64_range. }
  split; [apply Z.mod_small; exact Hp |].
  destruct (new2d_nowrap src dst numParts c ltac:(lia) Hc Hc1 Hfit Hs Hd)
    as (_ & Heq & _ & Hq).
  assert ((numParts + c - 1) / c = c) as Hrows.
  { rewrite <- Hsq. replace (c * c + c - 1) with (c - 1 + c * c) by lia.
    rewrite Z.div_add by lia. rewrite Z.div_small by lia. lia. }
  rewrite Hrows in Heq, Hq.
  assert (numParts - c * (c - 1) = c) as Hlast by lia.
  rewrite Hlast in Heq.
  assert (forall b : bool, (if b then c else c) = c) as Hif
    by (intros []; reflexivity).
  rewrite Hif in Heq. rewrite Heq. f_equal.
  set (q := mix src mod numParts / c) in *.
  assert (q <= c - 1) as Hqc.
  { assert ((numParts - 1) / c < c); [| lia].
    apply Z.div_lt_upper_bound; lia. }
  assert ((q + 1) * c <= c * c) by (apply Z.mul_le_mono_nonneg_r; lia).
  apply wrap_id. unfold I64.max_signed in *.
  assert (0 <= q * c) by (apply Z.mul_nonneg_nonneg; lia). i64_range.
Qed.

Lemma perfect_square_fast_path_witness :
  1 <= 3037000499 * 3037000499 <= I64.max_signed /\
  I64.in_range 1 /\ I64.in_range 0 /\
  perfect_square (3037000499 * 3037000499) /\
  old2d 1 0 (3037000499 * 3037000499) =
    Ok ((oldCol 1 (3037000499 * 3037000499)
           * ceil_sqrt (3037000499 * 3037000499)
         + oldRow 0 (3037000499 * 3037000499))
          mod (3037000499 * 3037000499)) /\
  (oldCol 1 (3037000499 * 3037000499) * ceil_sqrt (3037000499 * 3037000499)
   + oldRow 0 (3037000499 * 3037000499)) mod (3037000499 * 3037000499) =
    oldCol 1 (3037000499 * 3037000499) * ceil_sqrt (3037000499 * 3037000499)
    + oldRow 0 (3037000499 * 3037000499) /\
  new2d 1 0 (3037000499 * 3037000499) =
    Ok ((mix 1 mod (3037000499 * 3037000499))
          / ceil_sqrt (3037000499 * 3037000499)
          * ceil_sqrt (3037000499 * 3037000499)
        + oldRow 0 (3037000499 * 3037000499)).
Proof.
  assert (1 <= 3037000499 * 3037000499 <= I64.max_signed) as Hn
    by (unfold I64.max_signed; lia).
  assert (I64.in_range 1) as Hs by i64_range.
  assert (I64.in_range 0) as Hd by i64_range.
  assert (perfect_square (3037000499 * 3037000499)) as Hsq by reflexivity.
  split; [exact Hn |]. split; [exact Hs |]. split; [exact Hd |].
  split; [exact Hsq |].
  exact (perfect_square_fast_path 1 0 (3037000499 * 3037000499) Hn Hs Hd Hsq).
Defined.

(** ** Grid geometry *)

(** C3, as stated, fails twice for large [numParts].  With
    [numParts = 2^63 - 1] the code computes [cols = 3037000500], but
    [numParts + cols - 1] wraps, so that [rows = -3037000499] and
    [lastColRows = -5928526808].  And with [numParts = 2^52 + 1] the square
    root, taken in double precision, gives [cols = 67108864], one less than
    the ceiling of the exact root. *)
Lemma grid_geometry_fails_for_large_numParts :
  ~ (forall numParts cols,
       1 <= numParts -> math_ceil_sqrt numParts = Ok cols ->
       let rows := rows_of numParts cols in
       let lastColRows := lastColRows_of numParts cols rows in
       1 <= lastColRows <= rows /\
       (cols - 1) * rows + lastColRows = numParts) /\
  ~ (forall numParts,
       1 <= numParts -> math_ceil_sqrt numParts = Ok (ceil_sqrt numParts)).
Proof.
  split; intros H.
  - specialize (H (2 ^ 63 - 1) 3037000500 ltac:(lia) eq_refl).
    vm_compute in H. destruct H as [[H _] _]. by apply H.
  - specialize (H (2 ^ 52 + 1) ltac:(lia)). vm_compute in H. discriminate H.
Qed.

(** C3, amended. Grid geometry consistency: for every [numParts] from 1 to
    [2^63 - 3037000500], with [cols] the root the code computes (the ceiling
    of the square root below [2^52], and that or one less from there on),
    [rows = (numParts + cols - 1) div cols], which is the ceiling of
    [numParts / cols], and [lastColRows = numParts - rows * (cols - 1)],
    all as the code computes them in 64 bits: [1 <= lastColRows <= rows] and
    [(cols - 1) * rows + lastColRows = numParts]. *)
Theorem grid_geometry_consistent numParts :
  1 <= numParts <= 2 ^ 63 - maxCols ->
  exists cols,
    math_ceil_sqrt numParts = Ok cols /\
    (if numParts <? 2 ^ 52
     then cols = ceil_sqrt numParts /\
          (cols - 1) * (cols - 1) < numParts <= cols * cols
     else cols = ceil_sqrt numParts \/ cols = ceil_sqrt numParts - 1) /\
    let rows := rows_of numParts cols in
    let lastColRows := lastColRows_of numParts cols rows in
    rows = (numParts + cols - 1) / cols /\
    numParts <= rows * cols < numParts + cols /\
    lastColRows = numParts - rows * (cols - 1) /\
    1 <= lastColRows <= rows /\
    (cols - 1) * rows + lastColRows = numParts.
Proof.
  intros Hn.
  assert (1 <= numParts <= I64.max_signed) as Hn'
    by (unfold maxCols, I64.max_signed in *; lia).
  destruct (code_cols numParts Hn') as (c & Hc & Hc1 & Hle & Hlt).
  pose proof (ceil_sqrt_le_maxCols numParts Hn') as HK.
  assert (numParts + c - 1 <= I64.max_signed) as Hfit
    by (unfold maxCols, I64.max_signed in *; lia).
  pose proof (cols_choice numParts c ltac:(lia) ltac:(lia) Hle Hlt)
    as Hchoice.
  exists c. split; [exact Hc |]. split.
  { destruct (Z.ltb_spec numParts (2 ^ 52)) as [Hsmall | _].
    - rewrite math_ceil_sqrt_valid in Hc by lia. injection Hc as <-.
      split; [reflexivity |].
      destruct (ceil_sqrt_spec numParts ltac:(lia)) as (_ & Hlo & Hhi). lia.
    - destruct Hchoice as [-> | (-> & _)]; [by left | by right]. }
  destruct (geometry_fits numParts c ltac:(lia) Hc1 Hfit) as [Hrows Hlast].
  destruct (ceil_div_spec numParts c ltac:(lia) ltac:(lia))
    as (Hr1 & Hrlo & Hrhi).
  pose proof (grid_last_column numParts c ltac:(lia) ltac:(lia) Hchoice)
    as Hl.
  cbv zeta. rewrite Hrows, Hlast.
  set (r := (numParts + c - 1) / c) in *.
  split; [reflexivity |]. split; [lia |]. split; [reflexivity |].
  split; [exact Hl |]. lia.
Qed.

Lemma grid_geometry_consistent_witness :
  1 <= 2 ^ 52 + 1 <= 2 ^ 63 - maxCols /\
  exists cols,
    math_ceil_sqrt (2 ^ 52 + 1) = Ok cols /\
    (if 2 ^ 52 + 1 <? 2 ^ 52
     then cols = ceil_sqrt (2 ^ 52 + 1) /\
          (cols - 1) * (cols - 1) < 2 ^ 52 + 1 <= cols * cols
     else cols = ceil_sqrt (2 ^ 52 + 1) \/ cols = ceil_sqrt (2 ^ 52 + 1) - 1) /\
    let rows := rows_of (2 ^ 52 + 1) cols in
    let lastColRows := lastColRows_of (2 ^ 52 + 1) cols rows in
    rows = (2 ^ 52 + 1 + cols - 1) / cols /\
    2 ^ 52 + 1 <= rows * cols < 2 ^ 52 + 1 + cols /\
    lastColRows = 2 ^ 52 + 1 - rows * (cols - 1) /\
    1 <= lastColRows <= rows /\
    (cols - 1) * rows + lastColRows = 2 ^ 52 + 1.
Proof.
  assert (1 <= 2 ^ 52 + 1 <= 2 ^ 63 - maxCols) as Hn by (unfold maxCols; lia).
  split; [exact Hn |].
  exact (grid_geometry_consistent (2 ^ 52 + 1) Hn).
Defined.

(** ** Replication *)

(** C4, as stated, fails in its last part, whichever way [rows] is read.
    Taken from the code, [rows] is negative once [numParts + cols - 1]
    exceeds [2^63 - 1]: [-3037000499] for [numParts = 2^63 - 1], where one
    out-edge already exceeds it.  Taken as the ceiling of [numParts / cols],
    it is [3037000499] for [numParts = 2^63 - 3037000500 + 1], where the
    out-edges of vertex 0 reach [3037000500] partitions. *)
Lemma out_edges_exceed_rows_near_int64_max :
  ~ (forall v numParts dsts rows,
       1 <= numParts -> I64.in_range v -> new2d_rows numParts = Ok rows ->
       Z.of_nat (size (list_to_set (outEdges new2d v numParts dsts) : gset Z))
         <= rows) /\
  ~ (forall v numParts dsts,
       1 <= numParts -> I64.in_range v ->
       let cols := ceil_sqrt numParts in
       Z.of_nat (size (list_to_set (outEdges new2d v numParts dsts) : gset Z))
         <= (numParts + cols - 1) / cols).
Proof.
  split; intros H.
  - specialize (H 0 (2 ^ 63 - 1) [0] (-3037000499)
                  ltac:(lia) ltac:(i64_range) eq_refl).
    vm_compute in H. by apply H.
  - specialize (H 0 (2 ^ 63 - maxCols + 1) (unmix <$> seqZ 0 maxCols)
                  ltac:(unfold maxCols; lia) ltac:(i64_range)).
    cbv zeta in H. rewrite out_edges_fill_column in H.
    assert (ceil_sqrt (2 ^ 63 - maxCols + 1) = maxCols) as HC by reflexivity.
    rewrite HC in H.
    assert ((2 ^ 63 - maxCols + 1 + maxCols - 1) / maxCols = maxCols - 1)
      as Hq by reflexivity.
    rewrite Hq in H. lia.
Qed.

(** C4, amended. Replication-factor bound: for every [numParts >= 1] and
    every vertex [v], whatever edges are incident to [v] (out-edges to any
    destinations [dsts], in-edges from any sources [srcs]), the partitions
    they land in number at most [2 * ceil(sqrt(numParts))], under [new2d]
    and under [old2d]; beyond [2^63 - 1] no call returns and there is no
    partition at all.  Under [new2d] the column index [col] depends only on
    the source, so that the out-edges of [v] land in the single column
    [col]: each partition is [col * rows + row] with [|row| < |rows|], at
    most [|rows|] partitions, for the [rows] the code computes, which is
    negative once [numParts + cols - 1] exceeds [2^63 - 1]. *)
Theorem replication_bound_every_numParts v numParts dsts srcs :
  1 <= numParts ->
  Z.of_nat (size (replicas new2d v numParts dsts srcs))
    <= 2 * ceil_sqrt numParts /\
  Z.of_nat (size (replicas old2d v numParts dsts srcs))
    <= 2 * ceil_sqrt numParts /\
  match new2d_col v numParts, new2d_rows numParts with
  | Ok col, Ok rows =>
      Z.of_nat (size (list_to_set (outEdges new2d v numParts dsts) : gset Z))
        <= Z.abs rows /\
      Forall (fun y => exists row,
                Z.abs row < Z.abs rows /\
                y = I64.add (I64.mul col rows) row)
        (outEdges new2d v numParts dsts)
  | _, _ => outEdges new2d v numParts dsts = []
  end.
Proof.
  intros Hn. split; [by apply replicas_new2d_le |].
  split; [by apply replicas_old2d_le | by apply out_edges_one_column].
Qed.

Lemma replication_bound_every_numParts_witness :
  1 <= 2 ^ 63 - 1 /\
  Z.of_nat (size (replicas new2d 5 (2 ^ 63 - 1) [0; 1; 2] [3; 4]))
    <= 2 * ceil_sqrt (2 ^ 63 - 1) /\
  Z.of_nat (size (replicas old2d 5 (2 ^ 63 - 1) [0; 1; 2] [3; 4]))
    <= 2 * ceil_sqrt (2 ^ 63 - 1) /\
  match new2d_col 5 (2 ^ 63 - 1), new2d_rows (2 ^ 63 - 1) with
  | Ok col, Ok rows =>
      Z.of_nat (size (list_to_set (outEdges new2d 5 (2 ^ 63 - 1) [0; 1; 2])
                      : gset Z))
        <= Z.abs rows /\
      Forall (fun y => exists row,
                Z.abs row < Z.abs rows /\
                y = I64.add (I64.mul col rows) row)
        (outEdges new2d 5 (2 ^ 63 - 1) [0; 1; 2])
  | _, _ => outEdges new2d 5 (2 ^ 63 - 1) [0; 1; 2] = []
  end.
Proof.
  assert (1 <= 2 ^ 63 - 1) as Hn by lia.
  split; [exact Hn |].
  exact (replication_bound_every_numParts 5 (2 ^ 63 - 1) [0; 1; 2] [3; 4] Hn).
Defined.

Lemma outEdges_new2d v n dsts y :
  valid_numParts n -> y ∈ outEdges new2d v n dsts ->
  exists i, 0 <= i < gridRows n /\ y = newCol v n * gridRows n + i.
Proof.
  intros Hn Hy. apply list_elem_of_omap in Hy as (d & _ & Hd).
  destruct (new2d v d n) as [p |] eqn:Hp; [| discriminate].
  injection Hd as <-. apply new2d_Ok_inv in Hp; [| done].
  exists (newRow d n (newCol v n)). split; [| done].
  pose proof (newRow_bounds d n (newCol v n) Hn).
  pose proof (colHeight_bounds n (newCol v n) Hn). lia.
Qed.

Lemma inEdges_new2d v n srcs y :
  valid_numParts n -> y ∈ inEdges new2d v n srcs ->
  exists i, 0 <= i < gridCols n /\ y = i * gridRows n + newRow v n i.
Proof.
  intros Hn Hy. apply list_elem_of_omap in Hy as (s & _ & Hs).
  destruct (new2d s v n) as [p |] eqn:Hp; [| discriminate].
  injection Hs as <-. apply new2d_Ok_inv in Hp; [| done].
  exists (newCol s n). split; [| done].
  pose proof (newCol_bounds s n Hn). lia.
Qed.

Lemma outEdges_old2d v n dsts y :
  valid_numParts n -> y ∈ outEdges old2d v n dsts ->
  exists i, 0 <= i < ceil_sqrt n /\ y = (oldCol v n * ceil_sqrt n + i) mod n.
Proof.
  intros Hn Hy. apply list_elem_of_omap in Hy as (d & _ & Hd).
  destruct (old2d v d n) as [p |] eqn:Hp; [| discriminate].
  injection Hd as <-. apply old2d_Ok_inv in Hp; [| done].
  exists (oldRow d n). split; [by apply oldRow_bounds | done].
Qed.

Lemma inEdges_old2d v n srcs y :
  valid_numParts n -> y ∈ inEdges old2d v n srcs ->
  exists i, 0 <= i < ceil_sqrt n /\ y = (i * ceil_sqrt n + oldRow v n) mod n.
Proof.
  intros Hn Hy. apply list_elem_of_omap in Hy as (s & _ & Hs).
  destruct (old2d s v n) as [p |] eqn:Hp; [| discriminate].
  injection Hs as <-. apply old2d_Ok_inv in Hp; [| done].
  exists (oldCol s n). split; [by apply oldCol_bounds | done].
Qed.

Lemma replicas_size_le f v n dsts srcs :
  (size (replicas f v n dsts srcs) <=
   size (list_to_set (outEdges f v n dsts) : gset Z) +
   size (list_to_set (inEdges f v n srcs) : gset Z))%nat.
Proof. unfold replicas. rewrite list_to_set_app_L. apply size_union_le. Qed.

(** X16. Replication-factor bound for [numParts] from 1 to [2^52 - 1]:
    whatever edges are incident to a vertex [v] (out-edges to any
    destinations [dsts], in-edges from any sources [srcs]), the partitions
    they land in number at most [2 * ceil(sqrt(numParts))], under [new2d]
    and under [old2d].  Under [new2d] the out-edges of [v] share one column,
    hence at most [rows] partitions. *)
Theorem replication_bound v numParts dsts srcs :
  valid_numParts numParts ->
  (size (replicas new2d v numParts dsts srcs)
     <= 2 * Z.to_nat (ceil_sqrt numParts))%nat /\
  (size (replicas old2d v numParts dsts srcs)
     <= 2 * Z.to_nat (ceil_sqrt numParts))%nat /\
  (size (list_to_set (outEdges new2d v numParts dsts) : gset Z)
     <= Z.to_nat (rows_of numParts (ceil_sqrt numParts)))%nat /\
  Forall (fun y => y / rows_of numParts (ceil_sqrt numParts) = newCol v numParts)
    (outEdges new2d v numParts dsts).
Proof.
  intros Hn. rewrite (rows_of_eq numParts Hn).
  destruct (gridRows_bounds numParts Hn) as ([Hr1 Hr2] & _).
  unfold gridCols in Hr2.
  assert (size (list_to_set (outEdges new2d v numParts dsts) : gset Z)
            <= Z.to_nat (gridRows numParts))%nat as Hout.
  { apply (size_indexed_le _ (fun i => newCol v numParts * gridRows numParts + i)).
    intros y Hy. apply elem_of_list_to_set in Hy.
    by apply (outEdges_new2d v numParts dsts). }
  assert (size (list_to_set (inEdges new2d v numParts srcs) : gset Z)
            <= Z.to_nat (gridCols numParts))%nat as Hin.
  { apply (size_indexed_le _ (fun i => i * gridRows numParts + newRow v numParts i)).
    intros y Hy. apply elem_of_list_to_set in Hy.
    by apply (inEdges_new2d v numParts srcs). }
  assert (size (list_to_set (outEdges old2d v numParts dsts) : gset Z)
            <= Z.to_nat (ceil_sqrt numParts))%nat as Hout'.
  { apply (size_indexed_le _
             (fun i => (oldCol v numParts * ceil_sqrt numParts + i) mod numParts)).
    intros y Hy. apply elem_of_list_to_set in Hy.
    by apply (outEdges_old2d v numParts dsts). }
  assert (size (list_to_set (inEdges old2d v numParts srcs) : gset Z)
            <= Z.to_nat (ceil_sqrt numParts))%nat as Hin'.
  { apply (size_indexed_le _
             (fun i => (i * ceil_sqrt numParts + oldRow v numParts) mod numParts)).
    intros y Hy. apply elem_of_list_to_set in Hy.
    by apply (inEdges_old2d v numParts srcs). }
  pose proof (replicas_size_le new2d v numParts dsts srcs) as Hnew.
  pose proof (replicas_size_le old2d v numParts dsts srcs) as Hold.
  unfold gridCols in Hin.
  split; [lia |]. split; [lia |]. split; [exact Hout |].
  apply Forall_forall. intros y Hy. destruct (outEdges_new2d v numParts dsts y Hn Hy) as (i & Hi & ->).
  rewrite Z.add_comm, Z.div_add by lia. rewrite Z.div_small by lia. lia.
Qed.

Lemma replication_bound_witness :
  valid_numParts 10 /\
  (size (replicas new2d 5 10 [1; 2; 3; 4; 5; 6; 7; 8]%Z [9; 10; 11; 12; 13; 14]%Z)
     <= 2 * Z.to_nat (ceil_sqrt 10))%nat /\
  (size (replicas old2d 5 10 [1; 2; 3; 4; 5; 6; 7; 8]%Z [9; 10; 11; 12; 13; 14]%Z)
     <= 2 * Z.to_nat (ceil_sqrt 10))%nat /\
  (size (list_to_set (outEdges new2d 5 10 [1; 2; 3; 4; 5; 6; 7; 8]%Z) : gset Z)
     <= Z.to_nat (rows_of 10 (ceil_sqrt 10)))%nat /\
  Forall (fun y => y / rows_of 10 (ceil_sqrt 10) = newCol 5 10)
    (outEdges new2d 5 10 [1; 2; 3; 4; 5; 6; 7; 8]%Z).
Proof.
  assert (valid_numParts 10) as Hn by (unfold valid_numParts, maxNumParts; lia).
  split; [exact Hn |].
  exact (replication_bound 5 10 [1; 2; 3; 4; 5; 6; 7; 8]%Z
           [9; 10; 11; 12; 13; 14]%Z Hn).
Defined.

(** ** Invalid partition counts *)

(** C5, as stated, fails: with [numParts = 0] neither function raises; every
    division and remainder by zero yields 0 and the call returns 0. *)
Lemma zero_numParts_not_rejected :
  ~ (forall src dst numParts,
       I64.in_range src -> I64.in_range dst -> numParts <= 0 ->
       is_Ok (old2d src dst numParts) = false) /\
  ~ (forall src dst numParts,
       I64.in_range src -> I64.in_range dst -> numParts <= 0 ->
       is_Ok (new2d src dst numParts) = false).
Proof.
  split; intros H;
    (assert (I64.in_range 3) as H3 by i64_range);
    (assert (I64.in_range 8) as H8 by i64_range);
    specialize (H 3 8 0 H3 H8 ltac:(lia)); vm_compute in H; discriminate H.
Qed.

(** C5, amended. A negative [numParts] is rejected by [math.sqrt]: with a
    [ValueError] when it has a double, that is above
    [- (2^1024 - 2^970)], and with an [OverflowError] otherwise.
    [numParts = 0] is not rejected: both functions return 0. *)
Theorem invalid_numParts_behaviour src dst numParts :
  I64.in_range src -> I64.in_range dst -> numParts <= 0 ->
  old2d src dst numParts =
    (if numParts <=? - double_overflow then Raise OverflowError
     else if numParts <? 0 then Raise ValueError else Ok 0) /\
  new2d src dst numParts =
    (if numParts <=? - double_overflow then Raise OverflowError
     else if numParts <? 0 then Raise ValueError else Ok 0).
Proof.
  intros Hs Hd Hn. unfold old2d, new2d.
  rewrite (np_int64_in_range src Hs), (np_int64_in_range dst Hd). cbn [bind].
  rewrite (math_ceil_sqrt_nonpositive numParts Hn).
  destruct (numParts <=? - double_overflow); [split; reflexivity |].
  destruct (Z.ltb_spec numParts 0); [split; reflexivity |].
  assert (numParts = 0) as -> by lia. split; reflexivity.
Qed.

Lemma invalid_numParts_behaviour_witness :
  I64.in_range 3 /\ I64.in_range 8 /\ -2 <= 0 /\
  old2d 3 8 (-2) =
    (if -2 <=? - double_overflow then Raise OverflowError
     else if -2 <? 0 then Raise ValueError else Ok 0) /\
  new2d 3 8 (-2) =
    (if -2 <=? - double_overflow then Raise OverflowError
     else if -2 <? 0 then Raise ValueError else Ok 0).
Proof.
  assert (I64.in_range 3) as Hs by i64_range.
  assert (I64.in_range 8) as Hd by i64_range.
  assert (-2 <= 0) as Hn by lia.
  split; [exact Hs |]. split; [exact Hd |]. split; [exact Hn |].
  exact (invalid_numParts_behaviour 3 8 (-2) Hs Hd Hn).
Defined.

(** ** Column shares *)




(** * Further properties of the notebook's code *)

(** ** The scramble is a permutation of the 64-bit values *)

(** X1. Scrambling loses nothing: multiplying a 64-bit vertex ID by the
    mixing prime (with wrap-around) is undone by multiplying with its inverse
    modulo [2 ^ 64], and every 64-bit value is the scrambled form of the ID
    [unmix h]; so distinct IDs have distinct products. *)
Theorem scramble_round_trip v w :
  I64.in_range v -> I64.in_range w ->
  unmix (I64.mul v mixingPrime) = v /\
  I64.mul (unmix v) mixingPrime = v /\
  I64.in_range (unmix v) /\
  (I64.mul v mixingPrime = I64.mul w mixingPrime <-> v = w).
Proof.
  intros Hv Hw.
  assert (forall u, I64.in_range u -> unmix (I64.mul u mixingPrime) = u) as Hinv.
  { intros u Hu. unfold unmix. by apply mul_mul_inverse. }
  split; [by apply Hinv |].
  split; [unfold unmix; by apply mul_mul_inverse |].
  split; [apply wrap_in_range |].
  split; [| by intros ->].
  intros Heq. rewrite <- (Hinv v Hv), <- (Hinv w Hw). by rewrite Heq.
Qed.

Lemma scramble_round_trip_witness :
  I64.in_range 12345 /\ I64.in_range (-678) /\
  unmix (I64.mul 12345 mixingPrime) = 12345 /\
  I64.mul (unmix 12345) mixingPrime = 12345 /\
  I64.in_range (unmix 12345) /\
  (I64.mul 12345 mixingPrime = I64.mul (-678) mixingPrime <-> 12345 = -678).
Proof.
  assert (I64.in_range 12345) as Hv by i64_range.
  assert (I64.in_range (-678)) as Hw by i64_range.
  split; [exact Hv |]. split; [exact Hw |].
  exact (scramble_round_trip 12345 (-678) Hv Hw).
Defined.

Lemma mul_mixingPrime_inj v w :
  I64.in_range v -> I64.in_range w ->
  I64.mul v mixingPrime = I64.mul w mixingPrime -> v = w.
Proof.
  intros Hv Hw Heq.
  rewrite <- (mul_mul_inverse v mixingPrime mixingPrimeInv Hv eq_refl).
  rewrite <- (mul_mul_inverse w mixingPrime mixingPrimeInv Hw eq_refl).
  by rewrite Heq.
Qed.

(** X2. The scrambled ID [abs(v * mixingPrime)] is negative for exactly one
    64-bit vertex ID, the minimum value; for every other ID it lies in
    [[0, 2^63 - 1]]. *)
Theorem mix_negative_iff v :
  I64.in_range v ->
  (mix v < 0 <-> v = I64.min_signed) /\
  (0 <= mix v <= I64.max_signed <-> v <> I64.min_signed).
Proof.
  intros Hv.
  pose proof (wrap_in_range (v * mixingPrime)) as Hw.
  assert (I64.mul v mixingPrime = I64.min_signed <-> v = I64.min_signed) as Hmin.
  { split.
    - intros Heq. apply mul_mixingPrime_inj; [done | i64_range |].
      rewrite Heq. reflexivity.
    - intros ->. reflexivity. }
  assert (I64.mul v mixingPrime <> I64.min_signed ->
          0 <= mix v <= I64.max_signed) as Hpos.
  { intros Hne. unfold mix, I64.abs. fold (I64.mul v mixingPrime) in Hw.
    set (w := I64.mul v mixingPrime) in *.
    rewrite wrap_id by i64_range. i64_range. }
  split.
  - split.
    + intros Hneg. apply Hmin.
      destruct (decide (I64.mul v mixingPrime = I64.min_signed)); [done |].
      specialize (Hpos ltac:(done)). lia.
    + intros ->. reflexivity.
  - split.
    + intros Hge ->. vm_compute in Hge. destruct Hge as [Hge _]. by apply Hge.
    + intros Hne. apply Hpos. intros Heq. by apply Hne, Hmin.
Qed.

Lemma mix_negative_iff_witness :
  I64.in_range 77 /\
  (mix 77 < 0 <-> 77 = I64.min_signed) /\
  (0 <= mix 77 <= I64.max_signed <-> 77 <> I64.min_signed).
Proof.
  assert (I64.in_range 77) as Hv by i64_range.
  split; [exact Hv |].
  exact (mix_negative_iff 77 Hv).
Defined.

(** ** Arguments outside the 64-bit range *)

(** X3. A [src] or [dst] that does not fit in 64 bits makes both functions
    raise [OverflowError], whatever [numParts] is: the conversions come
    before the square root, so even a negative [numParts] is not reported. *)
Theorem out_of_range_id_raises src dst numParts :
  ~ I64.in_range src \/ ~ I64.in_range dst ->
  old2d src dst numParts = Raise OverflowError /\
  new2d src dst numParts = Raise OverflowError.
Proof.
  intros Hout. unfold old2d, new2d.
  destruct (decide (I64.in_range src)) as [Hs | Hs].
  - destruct Hout as [Hout | Hd]; [done |].
    rewrite (np_int64_in_range src Hs), (np_int64_out_of_range dst Hd).
    split; reflexivity.
  - rewrite (np_int64_out_of_range src Hs). split; reflexivity.
Qed.

Lemma out_of_range_id_raises_witness :
  (~ I64.in_range (2 ^ 63) \/ ~ I64.in_range 0) /\
  old2d (2 ^ 63) 0 (-5) = Raise OverflowError /\
  new2d (2 ^ 63) 0 (-5) = Raise OverflowError.
Proof.
  assert (~ I64.in_range (2 ^ 63) \/ ~ I64.in_range 0) as H
    by (left; i64_range).
  split; [exact H |].
  exact (out_of_range_id_raises (2 ^ 63) 0 (-5) H).
Defined.

(** ** Every partition is used *)

Lemma new2d_unmix hs hd n :
  valid_numParts n -> 0 <= hs < n -> 0 <= hd <= I64.max_signed ->
  new2d (unmix hs) (unmix hd) n =
    Ok (hs / gridRows n * gridRows n + hd mod colHeight n (hs / gridRows n)).
Proof.
  intros Hn Hs Hd. pose proof (valid_numParts_pos n Hn) as Hn'.
  rewrite new2d_eq by (done || apply wrap_in_range).
  unfold newCol, newRow.
  rewrite !mix_unmix by (unfold I64.max_signed in *; lia).
  rewrite (Z.mod_small hs n) by lia. reflexivity.
Qed.

Lemma old2d_unmix hs hd n :
  valid_numParts n -> 0 <= hs < ceil_sqrt n -> 0 <= hd < ceil_sqrt n ->
  old2d (unmix hs) (unmix hd) n = Ok ((hs * ceil_sqrt n + hd) mod n).
Proof.
  intros Hn Hs Hd. pose proof (gridCols_bounds n Hn) as Hc.
  unfold gridCols in Hc.
  rewrite old2d_eq by (done || apply wrap_in_range).
  unfold oldCol, oldRow.
  rewrite !mix_unmix by (unfold I64.max_signed in *; lia).
  rewrite (Z.mod_small hs (ceil_sqrt n)), (Z.mod_small hd (ceil_sqrt n)) by lia.
  reflexivity.
Qed.

(** The cell of a partition index: its column and its row lie in the grid. *)
Lemma index_cell_bounds n p :
  valid_numParts n -> 0 <= p < n ->
  0 <= p / gridRows n <= gridCols n - 1 /\
  0 <= p mod gridRows n < colHeight n (p / gridRows n) /\
  p / gridRows n * gridRows n + p mod gridRows n = p.
Proof.
  intros Hn Hp.
  destruct (gridRows_bounds n Hn) as ([Hr1 Hr2] & Hrc1 & Hrc2).
  pose proof (gridLastColRows_bounds n Hn) as Hl.
  pose proof (Z.div_mod p (gridRows n) ltac:(lia)) as Hdm.
  pose proof (Z.mod_pos_bound p (gridRows n) ltac:(lia)) as Hm.
  unfold colHeight, gridLastColRows in *.
  set (rows := gridRows n) in *. set (cols := gridCols n) in *.
  set (c := p / rows) in *. set (r := p mod rows) in *.
  assert (0 <= c) by (apply Z.div_pos; lia).
  assert (c < cols) by (apply Z.div_lt_upper_bound; nia).
  split; [lia |]. split; [| lia].
  destruct (Z.ltb_spec c (cols - 1)); [lia |].
  assert (c = cols - 1) by lia. nia.
Qed.

(** X4. Both methods use every partition: for each index [p] in
    [[0, numParts)] there are 64-bit vertex IDs that [new2d] sends to [p],
    and 64-bit vertex IDs that [old2d] sends to [p]. *)
Theorem every_partition_used numParts p :
  valid_numParts numParts -> 0 <= p < numParts ->
  (exists src dst, I64.in_range src /\ I64.in_range dst /\
                   new2d src dst numParts = Ok p) /\
  (exists src dst, I64.in_range src /\ I64.in_range dst /\
                   old2d src dst numParts = Ok p).
Proof.
  intros Hn Hp. pose proof (valid_numParts_pos numParts Hn) as Hn'.
  split.
  - destruct (index_cell_bounds numParts p Hn Hp) as (Hc & Hr & Hcell).
    destruct (gridRows_bounds numParts Hn) as ([Hr1 Hr2] & _).
    pose proof (colHeight_bounds numParts (p / gridRows numParts) Hn) as Hh.
    set (rows := gridRows numParts) in *.
    exists (unmix (p / rows * rows)), (unmix (p mod rows)).
    split; [apply wrap_in_range |]. split; [apply wrap_in_range |].
    rewrite new2d_unmix; [| done | nia | unfold I64.max_signed; lia].
    fold rows. rewrite Z.div_mul by lia. rewrite (Z.mod_small (p mod rows)) by lia.
    by rewrite Hcell.
  - pose proof (gridCols_bounds numParts Hn) as Hc. unfold gridCols in Hc.
    destruct (ceil_sqrt_spec numParts ltac:(lia)) as (_ & _ & Hhi).
    set (c := ceil_sqrt numParts) in *.
    pose proof (Z.div_mod p c ltac:(lia)) as Hdm.
    pose proof (Z.mod_pos_bound p c ltac:(lia)) as Hm.
    assert (0 <= p / c) by (apply Z.div_pos; lia).
    assert (p / c < c) by (apply Z.div_lt_upper_bound; nia).
    exists (unmix (p / c)), (unmix (p mod c)).
    split; [apply wrap_in_range |]. split; [apply wrap_in_range |].
    rewrite old2d_unmix by (done || lia). fold c.
    replace (p / c * c + p mod c) with p by lia.
    by rewrite Z.mod_small by lia.
Qed.

Lemma every_partition_used_witness :
  valid_numParts 10 /\ 0 <= 9 < 10 /\
  (exists src dst, I64.in_range src /\ I64.in_range dst /\
                   new2d src dst 10 = Ok 9) /\
  (exists src dst, I64.in_range src /\ I64.in_range dst /\
                   old2d src dst 10 = Ok 9).
Proof.
  assert (valid_numParts 10) as Hn by (unfold valid_numParts, maxNumParts; lia).
  assert (0 <= 9 < 10) as Hp by lia.
  split; [exact Hn |]. split; [exact Hp |].
  exact (every_partition_used 10 9 Hn Hp).
Defined.

(** ** Counting over ranges *)

Lemma filter_ext_in {A} (P Q : A -> Prop)
    `{!forall x, Decision (P x), !forall x, Decision (Q x)} (l : list A) :
  (forall x, x ∈ l -> P x <-> Q x) -> filter P l = filter Q l.
Proof.
  induction l as [| a l IH]; intros Hext; [done |].
  assert (filter P l = filter Q l) as Hl.
  { apply IH. intros x Hx. apply Hext. by right. }
  assert (P a <-> Q a) as Ha by (apply Hext; by left).
  rewrite !filter_cons, Hl.
  destruct (decide (P a)), (decide (Q a)); tauto.
Qed.

Lemma count_none {A} (P : A -> Prop) `{!forall x, Decision (P x)} (l : list A) :
  (forall x, x ∈ l -> ~ P x) -> length (filter P l) = 0%nat.
Proof.
  induction l as [| a l IH]; intros Hno; [done |].
  rewrite filter_cons.
  destruct (decide (P a)) as [Ha | _]; [exfalso; by apply (Hno a); [left |] |].
  apply IH. intros x Hx. apply Hno. by right.
Qed.

Lemma sum_list_with_ext_in {A} (f g : A -> nat) (l : list A) :
  (forall x, x ∈ l -> f x = g x) -> sum_list_with f l = sum_list_with g l.
Proof.
  induction l as [| a l IH]; intros Hext; [done |]. simpl.
  rewrite (Hext a) by (by left). rewrite IH; [done |].
  intros x Hx. apply Hext. by right.
Qed.

Lemma sum_indicator {A} (P : A -> Prop) `{!forall x, Decision (P x)}
    (k : nat) (l : list A) :
  sum_list_with (fun x => if decide (P x) then k else 0%nat) l =
    (k * length (filter P l))%nat.
Proof.
  induction l as [| a l IH]; simpl; [lia |].
  rewrite filter_cons, IH. destruct (decide (P a)); simpl; lia.
Qed.

Lemma count_fmap {A B} (f : A -> B) (Q : B -> Prop)
    `{!forall y, Decision (Q y)} (l : list A) :
  length (filter Q (f <$> l)) = length (filter (fun x => Q (f x)) l).
Proof.
  induction l as [| a l IH]; [done |].
  rewrite fmap_cons, !filter_cons. destruct (decide (Q (f a))); simpl; by rewrite IH.
Qed.

Lemma count_shift (Q : Z -> Prop) `{!forall y, Decision (Q y)} (a len : Z) :
  length (filter Q (seqZ a len)) =
    length (filter (fun x => Q (a + x)) (seqZ 0 len)).
Proof.
  unfold seqZ. rewrite !count_fmap. f_equal.
  apply filter_ext_in. intros i _.
  by replace (a + (Z.of_nat i + 0)) with (Z.of_nat i + a) by lia.
Qed.

Lemma count_eq (q a : Z) (m : nat) :
  length (filter (fun x => x = q) (seqZ a (Z.of_nat m))) =
    if decide (a <= q < a + Z.of_nat m) then 1%nat else 0%nat.
Proof.
  induction m as [| m IH].
  - simpl. destruct (decide _); [lia | done].
  - rewrite seqZ_S, filter_app, length_app, IH, filter_cons, filter_nil.
    destruct (decide (a + Z.of_nat m = q)), (decide (a <= q < a + Z.of_nat m)),
      (decide (a <= q < a + Z.of_nat (S m))); simpl; lia.
Qed.

Lemma count_mod (H r : Z) (k : nat) :
  0 <= r < H ->
  length (filter (fun x => x mod H = r) (seqZ 0 (H * Z.of_nat k))) = k.
Proof.
  intros Hr. induction k as [| k IH].
  - by rewrite Z.mul_0_r.
  - replace (H * Z.of_nat (S k)) with (H * Z.of_nat k + H) by lia.
    rewrite seqZ_app, filter_app, length_app, IH by nia.
    rewrite Z.add_0_l.
    rewrite (filter_ext_in _ (fun x => x = H * Z.of_nat k + r)).
    + rewrite <- (Z2Nat.id H) at 2 by lia. rewrite count_eq.
      rewrite Z2Nat.id by lia. destruct (decide _); lia.
    + intros x Hx. apply elem_of_seqZ in Hx.
      split.
      * intros Hmod.
        pose proof (Z.div_mod x H ltac:(lia)) as Hdm. rewrite Hmod in Hdm.
        assert (x / H = Z.of_nat k) by nia. nia.
      * intros ->.
        replace (H * Z.of_nat k + r) with (r + Z.of_nat k * H) by lia.
        rewrite Z.mod_add by lia. apply Z.mod_small. lia.
Qed.

Lemma count_flatten (Q : Z -> Prop) `{!forall y, Decision (Q y)} (c : Z) (m : nat) :
  0 <= c ->
  sum_list_with
    (fun hs => length (filter (fun hd => Q (hs * c + hd)) (seqZ 0 c)))
    (seqZ 0 (Z.of_nat m)) =
  length (filter Q (seqZ 0 (Z.of_nat m * c))).
Proof.
  intros Hc. induction m as [| m IH].
  - by rewrite Z.mul_0_l.
  - rewrite seqZ_S, sum_list_with_app, IH. simpl.
    replace (Z.of_nat (S m) * c) with (Z.of_nat m * c + c) by lia.
    rewrite seqZ_app, filter_app, length_app by nia.
    rewrite (count_shift Q (0 + Z.of_nat m * c)).
    rewrite !Z.add_0_l. lia.
Qed.

Lemma cell_unique rows c r p :
  0 <= r < rows -> c * rows + r = p <-> c = p / rows /\ r = p mod rows.
Proof.
  intros Hr. split.
  - intros <-. replace (c * rows + r) with (r + c * rows) by lia.
    split.
    + rewrite Z.div_add by lia. rewrite Z.div_small by lia. lia.
    + rewrite Z.mod_add by lia. by rewrite Z.mod_small.
  - intros [-> ->]. pose proof (Z.div_mod p rows ltac:(lia)). lia.
Qed.

Lemma count_column n c :
  valid_numParts n -> 0 <= c < gridCols n ->
  length (filter (fun h => h / gridRows n = c) (seqZ 0 n)) =
    Z.to_nat (colHeight n c).
Proof.
  intros Hn Hc.
  pose proof (gridLastColRows_bounds n Hn) as Hl.
  destruct (gridRows_bounds n Hn) as ([Hr1 Hr2] & Hrc1 & Hrc2).
  pose proof (valid_numParts_pos n Hn) as Hn'.
  rewrite (filter_ext_in _ (fun h => I64.floordiv h (gridRows n) = c)).
  - rewrite <- (Z2Nat.id n) at 1 by lia.
    rewrite count_floordiv by (unfold I64.max_signed; lia).
    rewrite (Z2Nat.id n) by lia. f_equal.
    unfold colHeight, gridLastColRows in *.
    set (rows := gridRows n) in *. set (cols := gridCols n) in *.
    destruct (Z.ltb_spec c (cols - 1)).
    + assert ((c + 1) * rows <= (cols - 1) * rows) by nia. lia.
    + assert (c = cols - 1) as -> by lia. lia.
  - intros h Hh. apply elem_of_seqZ in Hh.
    rewrite floordiv_small by (unfold I64.max_signed; lia). done.
Qed.

(** ** Balance of the two methods *)

Lemma new2d_hits hs hd n p :
  valid_numParts n -> 0 <= p < n ->
  0 <= hs < n -> 0 <= hd <= I64.max_signed ->
  new2d (unmix hs) (unmix hd) n = Ok p <->
  hs / gridRows n = p / gridRows n /\
  hd mod colHeight n (p / gridRows n) = p mod gridRows n.
Proof.
  intros Hn Hp Hs Hd. rewrite new2d_unmix by done.
  pose proof (colHeight_bounds n (hs / gridRows n) Hn) as Hh.
  pose proof (Z.mod_pos_bound hd (colHeight n (hs / gridRows n)) ltac:(lia)) as Hm.
  split.
  - intros Heq. injection Heq as Heq.
    apply cell_unique in Heq as [Hc Hr]; [| lia].
    split; [done |]. by rewrite <- Hc.
  - intros [Hc Hr]. f_equal. apply cell_unique; [lia |].
    split; [done |]. by rewrite Hc.
Qed.

(** X5. The new method is exactly balanced over a full period of its moduli:
    of the [numParts * rows * lastColRows] pairs of scrambled values
    [(hs, hd)] with [hs < numParts] and [hd < rows * lastColRows], every
    partition receives the same number, [rows * lastColRows]. *)
Theorem new2d_balanced numParts p :
  valid_numParts numParts -> 0 <= p < numParts ->
  let cols := ceil_sqrt numParts in
  let rows := rows_of numParts cols in
  let lastColRows := lastColRows_of numParts cols rows in
  Z.of_nat (newPairCount numParts p) = rows * lastColRows.
Proof.
  intros Hn Hp cols rows lastColRows. subst cols rows lastColRows.
  unfold newPairCount.
  rewrite (rows_of_eq numParts Hn), (lastColRows_of_eq numParts Hn).
  pose proof (gridLastColRows_bounds numParts Hn) as Hl.
  destruct (gridRows_bounds numParts Hn) as ([Hr1 Hr2] & Hrc1 & Hrc2).
  pose proof (gridCols_bounds numParts Hn) as Hcols.
  pose proof (valid_numParts_pos numParts Hn) as Hn'.
  destruct (index_cell_bounds numParts p Hn Hp) as (Hc & Hr & _).
  set (cp := p / gridRows numParts) in *.
  set (rp := p mod gridRows numParts) in *.
  set (L := gridRows numParts * gridLastColRows numParts).
  assert (0 <= L <= 2 ^ 26 * 2 ^ 26) as HL by (subst L; nia).
  set (K := if cp <? gridCols numParts - 1
            then gridLastColRows numParts else gridRows numParts).
  assert (L = colHeight numParts cp * K /\ 0 <= K) as [HLK HK].
  { subst L K. unfold colHeight. destruct (_ <? _); lia. }
  rewrite (sum_list_with_ext_in _
             (fun hs => if decide (hs / gridRows numParts = cp)
                        then Z.to_nat K else 0%nat)).
  - rewrite sum_indicator, count_column by (done || lia).
    rewrite Nat2Z.inj_mul, !Z2Nat.id by lia. lia.
  - intros hs Hs. apply elem_of_seqZ in Hs.
    destruct (decide (hs / gridRows numParts = cp)) as [Hcol | Hcol].
    + rewrite (filter_ext_in _ (fun hd => hd mod colHeight numParts cp = rp)).
      * rewrite HLK. rewrite <- (Z2Nat.id K) at 1 by lia. by apply count_mod.
      * intros hd Hd. apply elem_of_seqZ in Hd.
        rewrite new2d_hits by (done || unfold I64.max_signed; lia). tauto.
    + apply count_none. intros hd Hd. apply elem_of_seqZ in Hd.
      rewrite new2d_hits by (done || unfold I64.max_signed; lia). tauto.
Qed.

Lemma new2d_balanced_witness :
  valid_numParts 10 /\ 0 <= 9 < 10 /\
  let cols := ceil_sqrt 10 in
  let rows := rows_of 10 cols in
  let lastColRows := lastColRows_of 10 cols rows in
  Z.of_nat (newPairCount 10 9) = rows * lastColRows.
Proof.
  assert (valid_numParts 10) as Hn by (unfold valid_numParts, maxNumParts; lia).
  assert (0 <= 9 < 10) as Hp by lia.
  split; [exact Hn |]. split; [exact Hp |].
  exact (new2d_balanced 10 9 Hn Hp).
Defined.

(** X6. The old method folds a [ceilSqrt] by [ceilSqrt] grid onto
    [numParts] partitions: the partitions below [ceilSqrt^2 - numParts]
    receive two cells of the grid and the others one, so unless [numParts]
    is a perfect square some partitions get twice the load of others. *)
Theorem old2d_cells_per_partition numParts p :
  valid_numParts numParts -> 0 <= p < numParts ->
  oldCellCount numParts p =
    if p <? ceil_sqrt numParts * ceil_sqrt numParts - numParts
    then 2%nat else 1%nat.
Proof.
  intros Hn Hp. unfold oldCellCount.
  pose proof (gridCols_bounds numParts Hn) as Hc. unfold gridCols in Hc.
  pose proof (valid_numParts_pos numParts Hn) as Hn'.
  destruct (ceil_sqrt_spec numParts ltac:(lia)) as (_ & Hlo & Hhi).
  set (c := ceil_sqrt numParts) in *.
  assert (c * c <= 2 * numParts) as H2 by nia.
  rewrite (sum_list_with_ext_in _
             (fun hs => length (filter (fun hd => (hs * c + hd) mod numParts = p)
                                       (seqZ 0 c)))).
  2:{ intros hs Hs. apply elem_of_seqZ in Hs. f_equal.
      apply filter_ext_in. intros hd Hd. apply elem_of_seqZ in Hd.
      rewrite old2d_unmix by (done || lia). fold c.
      split; [by intros [= ->] | by intros ->]. }
  pose proof (count_flatten (fun k => k mod numParts = p) c (Z.to_nat c)
                ltac:(lia)) as Hflat.
  rewrite Z2Nat.id in Hflat by lia. rewrite Hflat. clear Hflat.
  replace (c * c) with (numParts + (c * c - numParts)) by lia.
  rewrite seqZ_app, filter_app, length_app by lia. rewrite Z.add_0_l.
  rewrite (filter_ext_in _ (fun k => k = p) (seqZ 0 numParts)).
  2:{ intros k Hk. apply elem_of_seqZ in Hk. by rewrite Z.mod_small by lia. }
  rewrite (filter_ext_in _ (fun k => k = p + numParts) (seqZ numParts _)).
  2:{ intros k Hk. apply elem_of_seqZ in Hk.
      replace k with (k - numParts + 1 * numParts) at 1 by lia.
      rewrite Z.mod_add, Z.mod_small by lia. lia. }
  rewrite <- (Z2Nat.id numParts) at 1 by lia.
  rewrite <- (Z2Nat.id (c * c - numParts)) at 1 by lia.
  rewrite !count_eq. rewrite !Z2Nat.id by lia.
  destruct (Z.ltb_spec p (numParts + (c * c - numParts) - numParts));
    repeat (destruct (decide _)); lia.
Qed.

Lemma old2d_cells_per_partition_witness :
  valid_numParts 8 /\ 0 <= 0 < 8 /\
  oldCellCount 8 0 =
    if 0 <? ceil_sqrt 8 * ceil_sqrt 8 - 8 then 2%nat else 1%nat.
Proof.
  assert (valid_numParts 8) as Hn by (unfold valid_numParts, maxNumParts; lia).
  assert (0 <= 0 < 8) as Hp by lia.
  split; [exact Hn |]. split; [exact Hp |].
  exact (old2d_cells_per_partition 8 0 Hn Hp).
Defined.

(** ** The grid drawn by [visualize] *)

Lemma viz_geometry n :
  valid_numParts n ->
  Viz.geometry n = inr (ceil_sqrt n, gridRows n, gridLastColRows n).
Proof.
  intros Hn. pose proof (gridCols_bounds n Hn) as Hc. unfold gridCols in Hc.
  pose proof (valid_numParts_pos n Hn) as Hn'.
  assert (2 ^ 52 <= double_overflow) as Hbig by (vm_compute; discriminate).
  unfold Viz.geometry, Viz.floordiv.
  destruct (Z.leb_spec n (- double_overflow)); [lia |].
  destruct (Z.leb_spec double_overflow n); [lia |]. cbn [orb].
  destruct (Z.ltb_spec n 0); [lia |].
  rewrite ceil_sqrt_double_exact by lia.
  destruct (Z.eqb_spec (ceil_sqrt n) 0); [lia |]. reflexivity.
Qed.

Lemma viz_patch n i :
  valid_numParts n -> 0 <= i < n ->
  Viz.patch n (ceil_sqrt n) (gridRows n) (gridLastColRows n) i =
    inr (cellRect n i).
Proof.
  intros Hn Hi. pose proof (valid_numParts_pos n Hn) as Hn'.
  destruct (gridRows_bounds n Hn) as ([Hr1 Hr2] & _).
  pose proof (gridLastColRows_bounds n Hn) as Hl.
  unfold Viz.patch, Viz.floordiv, Viz.modulo, Viz.truediv, cellRect, colHeight.
  fold (gridCols n).
  destruct (Z.eqb_spec (gridRows n) 0); [lia |].
  destruct (Z.eqb_spec (gridLastColRows n) 0); [lia |].
  destruct (Z.eqb_spec n 0); [lia |].
  cbn [Viz.bind]. destruct (_ <? _); reflexivity.
Qed.

Lemma viz_patches_loop (f : Z -> Viz.error + Viz.rect) (g : Z -> Viz.rect) l :
  (forall i, i ∈ l -> f i = inr (g i)) ->
  Viz.patches_loop f l = inr (g <$> l).
Proof.
  induction l as [| i l IH]; intros Hf; [done |].
  simpl. rewrite (Hf i) by (by left).
  rewrite IH by (intros j Hj; apply Hf; by right). reflexivity.
Qed.

Lemma viz_patches n :
  valid_numParts n -> Viz.patches n = inr (cellRect n <$> seqZ 0 n).
Proof.
  intros Hn. unfold Viz.patches. rewrite (viz_geometry n Hn). cbn [Viz.bind].
  apply viz_patches_loop. intros i Hi. apply elem_of_seqZ in Hi.
  apply viz_patch; [done | lia].
Qed.

Lemma cellRect_tile_ok n i :
  valid_numParts n -> 0 <= i < n -> tile_ok n (cellRect n i).
Proof.
  intros Hn Hi. pose proof (valid_numParts_pos n Hn) as Hn'.
  destruct (index_cell_bounds n i Hn Hi) as (Hc & Hr & Hcell).
  pose proof (colHeight_bounds n (i / gridRows n) Hn) as Hh.
  pose proof (grid_index_bounds n (i / gridRows n) (colHeight n (i / gridRows n) - 1)
                Hn Hc ltac:(lia)) as Hx.
  destruct (gridRows_bounds n Hn) as ([Hr1 Hr2] & _).
  unfold tile_ok, cellRect. cbn.
  set (c := i / gridRows n) in *. set (h := colHeight n c) in *.
  repeat split; lia || nia.
Qed.

(** X7. For a valid [numParts], [visualize] draws exactly one rectangle per
    partition without ever dividing by zero, and each rectangle, read as
    exact fractions, lies inside the unit square and has area
    [1 / numParts]: the bins are evenly sized. *)
Theorem visualize_tiles numParts :
  valid_numParts numParts ->
  exists l,
    Viz.patches numParts = inr l /\
    Z.of_nat (length l) = numParts /\
    Forall (tile_ok numParts) l.
Proof.
  intros Hn. pose proof (valid_numParts_pos numParts Hn) as Hn'.
  exists (cellRect numParts <$> seqZ 0 numParts).
  split; [by apply viz_patches |].
  split; [rewrite length_fmap, length_seqZ; lia |].
  apply Forall_fmap, Forall_forall. intros i Hi. apply elem_of_seqZ in Hi.
  apply cellRect_tile_ok; [done | lia].
Qed.

Lemma visualize_tiles_witness :
  valid_numParts 10 /\
  exists l,
    Viz.patches 10 = inr l /\
    Z.of_nat (length l) = 10 /\
    Forall (tile_ok 10) l.
Proof.
  assert (valid_numParts 10) as Hn by (unfold valid_numParts, maxNumParts; lia).
  split; [exact Hn |].
  exact (visualize_tiles 10 Hn).
Defined.

(** X8. The picture matches the partitioner: the rectangle that [visualize]
    draws for the index [new2d] returns sits at the column and the row that
    [new2d] computed for the edge, and has the height of that column. *)
Theorem visualize_shows_new2d src dst numParts :
  valid_numParts numParts -> I64.in_range src -> I64.in_range dst ->
  exists p l r,
    new2d src dst numParts = Ok p /\
    Viz.patches numParts = inr l /\
    l !! Z.to_nat p = Some r /\
    Viz.rx r =
      Viz.Frac (newCol src numParts * rows_of numParts (ceil_sqrt numParts))
               numParts /\
    Viz.ry r =
      Viz.Frac (newRow dst numParts (newCol src numParts))
               (colHeight numParts (newCol src numParts)).
Proof.
  intros Hn Hs Hd.
  pose proof (newCol_bounds src numParts Hn) as Hcol.
  pose proof (newRow_bounds dst numParts (newCol src numParts) Hn) as Hrow.
  pose proof (grid_index_bounds numParts _ _ Hn Hcol Hrow) as Hp.
  pose proof (colHeight_bounds numParts (newCol src numParts) Hn) as Hh.
  set (p := newCol src numParts * gridRows numParts
            + newRow dst numParts (newCol src numParts)) in *.
  assert (newCol src numParts = p / gridRows numParts /\
          newRow dst numParts (newCol src numParts) = p mod gridRows numParts)
    as [Hc Hr] by (apply cell_unique; [lia | done]).
  exists p, (cellRect numParts <$> seqZ 0 numParts), (cellRect numParts p).
  split; [by apply new2d_eq |].
  split; [by apply viz_patches |].
  split.
  { rewrite list_lookup_fmap, lookup_seqZ_lt by lia.
    simpl. f_equal. f_equal. lia. }
  rewrite (rows_of_eq numParts Hn). unfold cellRect. cbn.
  rewrite <- Hc, <- Hr. done.
Qed.

Lemma visualize_shows_new2d_witness :
  valid_numParts 10 /\ I64.in_range 17 /\ I64.in_range (-4) /\
  exists p l r,
    new2d 17 (-4) 10 = Ok p /\
    Viz.patches 10 = inr l /\
    l !! Z.to_nat p = Some r /\
    Viz.rx r = Viz.Frac (newCol 17 10 * rows_of 10 (ceil_sqrt 10)) 10 /\
    Viz.ry r = Viz.Frac (newRow (-4) 10 (newCol 17 10))
                        (colHeight 10 (newCol 17 10)).
Proof.
  assert (valid_numParts 10) as Hn by (unfold valid_numParts, maxNumParts; lia).
  assert (I64.in_range 17) as Hs by i64_range.
  assert (I64.in_range (-4)) as Hd by i64_range.
  split; [exact Hn |]. split; [exact Hs |]. split; [exact Hd |].
  exact (visualize_shows_new2d 17 (-4) 10 Hn Hs Hd).
Defined.

(** X9. An invalid [numParts] stops [visualize] before any rectangle is
    made: a negative one in [math.sqrt], with a [ValueError] when it has a
    double (above [- (2^1024 - 2^970)]) and an [OverflowError] otherwise;
    and zero with a [ZeroDivisionError], because here the geometry is
    computed on Python ints (where [new2d], on [np.int64], goes on and
    returns 0). *)
Theorem visualize_rejects_invalid numParts :
  numParts <= 0 ->
  Viz.patches numParts =
    inl (if numParts <=? - double_overflow then Viz.OverflowError
         else if numParts <? 0 then Viz.ValueError
         else Viz.ZeroDivisionError).
Proof.
  intros Hn. unfold Viz.patches, Viz.geometry.
  assert (0 < double_overflow) as Hbig by reflexivity.
  destruct (Z.leb_spec double_overflow numParts); [lia |]. rewrite orb_false_r.
  destruct (numParts <=? - double_overflow); [reflexivity |].
  destruct (Z.ltb_spec numParts 0); [reflexivity |].
  assert (numParts = 0) as -> by lia. reflexivity.
Qed.

Lemma visualize_rejects_invalid_witness :
  0 <= 0 /\
  Viz.patches 0 =
    inl (if 0 <=? - double_overflow then Viz.OverflowError
         else if 0 <? 0 then Viz.ValueError
         else Viz.ZeroDivisionError).
Proof.
  assert (0 <= 0) as Hn by lia.
  split; [exact Hn |].
  exact (visualize_rejects_invalid 0 Hn).
Defined.

(** ** The sampler *)

Lemma rand_vid_in_range k : 0 <= k < 2 ^ 64 -> I64.in_range (rand_vid k).
Proof. unfold rand_vid. intros Hk. i64_range. Qed.

(** X10. [rand_vid] produces exactly the 64-bit values: every draw is
    accepted by [np.int64], and every 64-bit value, the minimum included, is
    the result of some draw. *)
Theorem rand_vid_covers_int64 v :
  (exists k, 0 <= k < 2 ^ 64 /\ rand_vid k = v) <-> np_int64 v = Ok v.
Proof.
  split.
  - intros (k & Hk & <-). by apply np_int64_in_range, rand_vid_in_range.
  - intros Hv.
    destruct (decide (I64.in_range v)) as [Hr | Hr];
      [| by rewrite (np_int64_out_of_range v Hr) in Hv].
    exists (v + 2 ^ 63). unfold rand_vid. split; [i64_range | lia].
Qed.

Lemma total_incr k (cnt : gmap Z nat) : total (incr k cnt) = S (total cnt).
Proof.
  unfold total, incr.
  assert (forall (m : gmap Z nat) (j1 j2 : Z) (z1 z2 y : nat),
            j1 ≠ j2 -> m !! j1 = Some z1 -> m !! j2 = Some z2 ->
            (z1 + (z2 + y) = z2 + (z1 + y))%nat) as Hcomm by (intros; lia).
  destruct (cnt !! k) as [v |] eqn:Hk; simpl.
  - rewrite <- insert_delete_eq.
    rewrite map_fold_insert_L; [| by eauto | by rewrite lookup_delete_eq].
    rewrite (map_fold_delete_L _ _ k v cnt); [lia | by eauto | done].
  - rewrite map_fold_insert_L; [lia | by eauto | done].
Qed.

Lemma keys_incr (P : Z -> Prop) k (cnt : gmap Z nat) :
  P k -> map_Forall (fun j v => P j /\ (1 <= v)%nat) cnt ->
  map_Forall (fun j v => P j /\ (1 <= v)%nat) (incr k cnt).
Proof.
  intros Hk Hcnt. unfold incr. apply map_Forall_insert_2; [| done].
  split; [done | lia].
Qed.

Lemma sample_raise draw n e l :
  foldl (sample draw n) (Raise e) l = Raise e.
Proof. induction l as [| x l IH]; [done |]. simpl. exact IH. Qed.

Lemma sample_loop draw n l cursor c :
  valid_numParts n -> draws_ok draw ->
  map_Forall (fun j v => 0 <= j < n /\ (1 <= v)%nat) (old_cnt c) ->
  map_Forall (fun j v => 0 <= j < n /\ (1 <= v)%nat) (new_cnt c) ->
  exists c',
    foldl (sample draw n) (Ok (cursor, c)) l =
      Ok ((cursor + 2 * length l)%nat, c') /\
    total (old_cnt c') = (total (old_cnt c) + length l)%nat /\
    total (new_cnt c') = (total (new_cnt c) + length l)%nat /\
    map_Forall (fun j v => 0 <= j < n /\ (1 <= v)%nat) (old_cnt c') /\
    map_Forall (fun j v => 0 <= j < n /\ (1 <= v)%nat) (new_cnt c').
Proof.
  intros Hn Hdraw. revert cursor c.
  induction l as [| x l IH]; intros cursor c Hold Hnew.
  - exists c. simpl. rewrite !Nat.add_0_r. done.
  - pose proof (rand_vid_in_range _ (Hdraw cursor)) as Hs.
    pose proof (rand_vid_in_range _ (Hdraw (S cursor))) as Hd.
    destruct (old2d_range _ _ n Hn Hs Hd) as (o & Ho & Hob).
    destruct (new2d_range _ _ n Hn Hs Hd) as (q & Hq & Hqb).
    assert (sample draw n (Ok (cursor, c)) x =
              Ok (S (S cursor),
                  Counters (incr o (old_cnt c)) (incr q (new_cnt c))))
      as Hstep.
    { unfold sample. cbn [bind fst snd]. rewrite Ho, Hq. reflexivity. }
    cbn [foldl]. rewrite Hstep.
    destruct (IH (S (S cursor))
                (Counters (incr o (old_cnt c)) (incr q (new_cnt c))))
      as (c' & Hfold & Hto & Htn & Hko & Hkn).
    { by apply keys_incr. }
    { by apply keys_incr. }
    exists c'. rewrite Hfold. cbn [old_cnt new_cnt] in Hto, Htn.
    rewrite total_incr in Hto, Htn. cbn [length].
    split; [f_equal; f_equal; lia |].
    split; [lia |]. split; [lia |]. split; done.
Qed.

(** X11. For a valid [numParts], [get_counts] returns two counters that
    each tally [sample_size - 1] samples, one fewer than [sample_size]
    (9999 for the default 10000), because the loop starts at 1; every key is
    a partition index in [[0, numParts)] and no count is zero. *)
Theorem get_counts_totals draw numParts sample_size :
  valid_numParts numParts -> draws_ok draw ->
  exists c,
    get_counts draw numParts sample_size = Ok c /\
    total (old_cnt c) = Z.to_nat (sample_size - 1) /\
    total (new_cnt c) = Z.to_nat (sample_size - 1) /\
    map_Forall (fun j v => 0 <= j < numParts /\ (1 <= v)%nat) (old_cnt c) /\
    map_Forall (fun j v => 0 <= j < numParts /\ (1 <= v)%nat) (new_cnt c).
Proof.
  intros Hn Hdraw. unfold get_counts.
  destruct (sample_loop draw numParts (seqZ 1 (sample_size - 1)) 0
              (Counters ∅ ∅) Hn Hdraw)
    as (c & Hfold & Hto & Htn & Hko & Hkn);
    [apply map_Forall_empty | apply map_Forall_empty |].
  exists c. rewrite Hfold. cbn [bind snd].
  rewrite length_seqZ in Hto, Htn. simpl in Hto, Htn.
  unfold total in Hto at 2. unfold total in Htn at 2.
  rewrite map_fold_empty in Hto, Htn. done.
Qed.

Lemma get_counts_totals_witness :
  valid_numParts 10 /\ draws_ok (fun i => Z.of_nat i * 7919 mod 2 ^ 64) /\
  exists c,
    get_counts (fun i => Z.of_nat i * 7919 mod 2 ^ 64) 10 10000 = Ok c /\
    total (old_cnt c) = Z.to_nat (10000 - 1) /\
    total (new_cnt c) = Z.to_nat (10000 - 1) /\
    map_Forall (fun j v => 0 <= j < 10 /\ (1 <= v)%nat) (old_cnt c) /\
    map_Forall (fun j v => 0 <= j < 10 /\ (1 <= v)%nat) (new_cnt c).
Proof.
  assert (valid_numParts 10) as Hn by (unfold valid_numParts, maxNumParts; lia).
  assert (draws_ok (fun i => Z.of_nat i * 7919 mod 2 ^ 64)) as Hdraw
    by (intros i; apply Z.mod_pos_bound; lia).
  split; [exact Hn |]. split; [exact Hdraw |].
  exact (get_counts_totals _ 10 10000 Hn Hdraw).
Defined.

(** X12. With [sample_size <= 1] the loop of [get_counts] is empty: both
    counters come back empty and no partitioner is called, so not even an
    invalid [numParts] raises. *)
Theorem get_counts_no_samples draw numParts sample_size :
  sample_size <= 1 ->
  get_counts draw numParts sample_size = Ok (Counters ∅ ∅).
Proof.
  intros Hs. unfold get_counts. by rewrite seqZ_nil by lia.
Qed.

Lemma get_counts_no_samples_witness :
  1 <= 1 /\ get_counts (fun _ => 0) (-3) 1 = Ok (Counters ∅ ∅).
Proof.
  assert (1 <= 1) as Hs by lia.
  split; [exact Hs |].
  exact (get_counts_no_samples (fun _ => 0) (-3) 1 Hs).
Defined.

(** X13. With a negative [numParts] and at least one sample,
    [get_counts] raises the exception of the first call of [old2d]: a
    [ValueError], or an [OverflowError] when [numParts] has no double
    (at or below [- (2^1024 - 2^970)]). *)
Theorem get_counts_negative_numParts draw numParts sample_size :
  draws_ok draw -> numParts < 0 -> 2 <= sample_size ->
  get_counts draw numParts sample_size =
    Raise (if numParts <=? - double_overflow then OverflowError
           else ValueError).
Proof.
  intros Hdraw Hn Hs. unfold get_counts.
  rewrite seqZ_cons by lia. cbn [foldl].
  pose proof (rand_vid_in_range _ (Hdraw 0%nat)) as Hsrc.
  pose proof (rand_vid_in_range _ (Hdraw 1%nat)) as Hdst.
  assert (sample draw numParts (Ok (0%nat, Counters ∅ ∅)) 1 =
            Raise (if numParts <=? - double_overflow then OverflowError
                   else ValueError)) as Hstep.
  { unfold sample. cbn [bind fst snd]. unfold old2d.
    rewrite (np_int64_in_range _ Hsrc), (np_int64_in_range _ Hdst).
    cbn [bind]. rewrite math_ceil_sqrt_nonpositive by lia.
    destruct (numParts <=? - double_overflow); [reflexivity |].
    destruct (Z.ltb_spec numParts 0); [reflexivity | lia]. }
  rewrite Hstep, sample_raise. reflexivity.
Qed.

Lemma get_counts_negative_numParts_witness :
  draws_ok (fun i => Z.of_nat i * 7919 mod 2 ^ 64) /\ -1 < 0 /\ 2 <= 10000 /\
  get_counts (fun i => Z.of_nat i * 7919 mod 2 ^ 64) (-1) 10000 =
    Raise (if -1 <=? - double_overflow then OverflowError else ValueError).
Proof.
  assert (draws_ok (fun i => Z.of_nat i * 7919 mod 2 ^ 64)) as Hdraw
    by (intros i; apply Z.mod_pos_bound; lia).
  assert (-1 < 0) as Hn by lia.
  assert (2 <= 10000) as Hs by lia.
  split; [exact Hdraw |]. split; [exact Hn |]. split; [exact Hs |].
  exact (get_counts_negative_numParts _ (-1) 10000 Hdraw Hn Hs).
Defined.

Lemma incr_lookup k p (cnt : gmap Z nat) :
  default 0%nat (incr k cnt !! p) =
    if decide (k = p) then S (default 0%nat (cnt !! p))
    else default 0%nat (cnt !! p).
Proof.
  unfold incr. rewrite lookup_insert.
  destruct (decide (k = p)) as [-> | Hne]; reflexivity.
Qed.

Lemma count_cons {A} (P : A -> Prop) `{!forall x, Decision (P x)} a (l : list A) :
  length (filter P (a :: l)) =
    ((if decide (P a) then 1 else 0) + length (filter P l))%nat.
Proof. rewrite filter_cons. by destruct (decide (P a)). Qed.

Lemma sample_loop_histogram draw n p l cursor c :
  valid_numParts n -> draws_ok draw ->
  exists c',
    foldl (sample draw n) (Ok (cursor, c)) l =
      Ok ((cursor + 2 * length l)%nat, c') /\
    default 0%nat (old_cnt c' !! p) =
      (default 0%nat (old_cnt c !! p) +
       length (filter (fun j => old2d (rand_vid (draw (cursor + 2 * j)%nat))
                                      (rand_vid (draw (S (cursor + 2 * j))))
                                      n = Ok p)
                      (seq 0 (length l))))%nat /\
    default 0%nat (new_cnt c' !! p) =
      (default 0%nat (new_cnt c !! p) +
       length (filter (fun j => new2d (rand_vid (draw (cursor + 2 * j)%nat))
                                      (rand_vid (draw (S (cursor + 2 * j))))
                                      n = Ok p)
                      (seq 0 (length l))))%nat.
Proof.
  intros Hn Hdraw. revert cursor c.
  induction l as [| x l IH]; intros cursor c.
  - exists c. simpl. rewrite !Nat.add_0_r. done.
  - pose proof (rand_vid_in_range _ (Hdraw cursor)) as Hs.
    pose proof (rand_vid_in_range _ (Hdraw (S cursor))) as Hd.
    destruct (old2d_range _ _ n Hn Hs Hd) as (o & Ho & Hob).
    destruct (new2d_range _ _ n Hn Hs Hd) as (q & Hq & Hqb).
    assert (sample draw n (Ok (cursor, c)) x =
              Ok (S (S cursor),
                  Counters (incr o (old_cnt c)) (incr q (new_cnt c))))
      as Hstep.
    { unfold sample. cbn [bind fst snd]. rewrite Ho, Hq. reflexivity. }
    cbn [foldl]. rewrite Hstep.
    destruct (IH (S (S cursor))
                (Counters (incr o (old_cnt c)) (incr q (new_cnt c))))
      as (c' & Hfold & Hho & Hhn).
    exists c'. rewrite Hfold. cbn [old_cnt new_cnt] in Hho, Hhn.
    rewrite incr_lookup in Hho, Hhn. cbn [length].
    split; [f_equal; f_equal; lia |].
    rewrite <- cons_seq, <- fmap_S_seq, !count_cons, !count_fmap.
    rewrite Nat.mul_0_r, Nat.add_0_r, Ho, Hq.
    assert (forall j, (S (S cursor) + 2 * j = cursor + 2 * S j)%nat) as Hidx
      by (intros; lia).
    split.
    + rewrite Hho.
      rewrite (filter_ext_in _
                 (fun j => old2d (rand_vid (draw (cursor + 2 * S j)%nat))
                                 (rand_vid (draw (S (cursor + 2 * S j)))) n = Ok p)
                 (seq 0 (length l)))
        by (intros j _; by rewrite Hidx).
      destruct (decide (o = p)) as [-> | Hne];
        destruct (decide (Ok _ = Ok p)) as [Heq | Heq];
        try lia; congruence.
    + rewrite Hhn.
      rewrite (filter_ext_in _
                 (fun j => new2d (rand_vid (draw (cursor + 2 * S j)%nat))
                                 (rand_vid (draw (S (cursor + 2 * S j)))) n = Ok p)
                 (seq 0 (length l)))
        by (intros j _; by rewrite Hidx).
      destruct (decide (q = p)) as [-> | Hne];
        destruct (decide (Ok _ = Ok p)) as [Heq | Heq];
        try lia; congruence.
Qed.

(** X14. The counters of [get_counts] are exact histograms: sample [j]
    uses draws [2 j] and [2 j + 1] as source and destination, and the count
    stored for a partition [p] (0 if [p] is not a key) is the number of
    samples that the method sends to [p]. *)
Theorem get_counts_histogram draw numParts sample_size p :
  valid_numParts numParts -> draws_ok draw ->
  exists c,
    get_counts draw numParts sample_size = Ok c /\
    default 0%nat (old_cnt c !! p) =
      length (filter (fun j => old2d (rand_vid (draw (2 * j)%nat))
                                     (rand_vid (draw (S (2 * j))))
                                     numParts = Ok p)
                     (seq 0 (Z.to_nat (sample_size - 1)))) /\
    default 0%nat (new_cnt c !! p) =
      length (filter (fun j => new2d (rand_vid (draw (2 * j)%nat))
                                     (rand_vid (draw (S (2 * j))))
                                     numParts = Ok p)
                     (seq 0 (Z.to_nat (sample_size - 1)))).
Proof.
  intros Hn Hdraw. unfold get_counts.
  destruct (sample_loop_histogram draw numParts p (seqZ 1 (sample_size - 1)) 0
              (Counters ∅ ∅) Hn Hdraw) as (c & Hfold & Hho & Hhn).
  exists c. rewrite Hfold. cbn [bind snd].
  rewrite length_seqZ in Hho, Hhn. cbn [old_cnt new_cnt] in Hho, Hhn.
  rewrite lookup_empty in Hho, Hhn. done.
Qed.

Lemma get_counts_histogram_witness :
  valid_numParts 10 /\ draws_ok (fun i => Z.of_nat i * 7919 mod 2 ^ 64) /\
  exists c,
    get_counts (fun i => Z.of_nat i * 7919 mod 2 ^ 64) 10 50 = Ok c /\
    default 0%nat (old_cnt c !! 4) =
      length (filter (fun j => old2d (rand_vid (Z.of_nat (2 * j) * 7919 mod 2 ^ 64))
                                     (rand_vid (Z.of_nat (S (2 * j)) * 7919 mod 2 ^ 64))
                                     10 = Ok 4)
                     (seq 0 (Z.to_nat (50 - 1)))) /\
    default 0%nat (new_cnt c !! 4) =
      length (filter (fun j => new2d (rand_vid (Z.of_nat (2 * j) * 7919 mod 2 ^ 64))
                                     (rand_vid (Z.of_nat (S (2 * j)) * 7919 mod 2 ^ 64))
                                     10 = Ok 4)
                     (seq 0 (Z.to_nat (50 - 1)))).
Proof.
  assert (valid_numParts 10) as Hn by (unfold valid_numParts, maxNumParts; lia).
  assert (draws_ok (fun i => Z.of_nat i * 7919 mod 2 ^ 64)) as Hdraw
    by (intros i; apply Z.mod_pos_bound; lia).
  split; [exact Hn |]. split; [exact Hdraw |].
  exact (get_counts_histogram _ 10 50 4 Hn Hdraw).
Defined.

(** ** Vertex IDs of opposite sign *)

Lemma mul_mixingPrime_min v :
  I64.in_range v ->
  I64.mul v mixingPrime = I64.min_signed <-> v = I64.min_signed.
Proof.
  intros Hv. split.
  - intros Heq. apply mul_mixingPrime_inj; [done | i64_range |].
    rewrite Heq. reflexivity.
  - intros ->. reflexivity.
Qed.

Lemma mix_opp v :
  I64.in_range v -> v <> I64.min_signed -> mix (- v) = mix v.
Proof.
  intros Hv Hne. unfold mix.
  pose proof (wrap_in_range (v * mixingPrime)) as Hw.
  assert (I64.mul v mixingPrime <> I64.min_signed) as Hw'
    by (intros Heq; by apply Hne, mul_mixingPrime_min).
  assert (I64.mul (- v) mixingPrime = - I64.mul v mixingPrime) as ->.
  { unfold I64.mul in *.
    destruct (wrap_multiple (v * mixingPrime)) as (k & Hk).
    replace (- v * mixingPrime)
      with (- I64.wrap (v * mixingPrime) + k * 2 ^ 64) by lia.
    rewrite wrap_add_multiple. apply wrap_id. i64_range. }
  unfold I64.abs. by rewrite Z.abs_opp.
Qed.

(** X15. The scramble ignores the sign of a vertex ID: for 64-bit [src] and
    [dst] other than the minimum value, negating either gives the same
    partition (or the same exception), under both methods and for every
    [numParts]. *)
Theorem sign_of_id_ignored src dst numParts :
  I64.in_range src -> I64.in_range dst ->
  src <> I64.min_signed -> dst <> I64.min_signed ->
  old2d (- src) dst numParts = old2d src dst numParts /\
  old2d src (- dst) numParts = old2d src dst numParts /\
  new2d (- src) dst numParts = new2d src dst numParts /\
  new2d src (- dst) numParts = new2d src dst numParts.
Proof.
  intros Hs Hd Hsne Hdne.
  assert (I64.in_range (- src)) as Hs' by i64_range.
  assert (I64.in_range (- dst)) as Hd' by i64_range.
  unfold old2d, new2d.
  rewrite (np_int64_in_range src), (np_int64_in_range dst),
    (np_int64_in_range (- src)), (np_int64_in_range (- dst)) by done.
  cbn [bind]. rewrite (mix_opp src), (mix_opp dst) by done. done.
Qed.

Lemma sign_of_id_ignored_witness :
  I64.in_range 5 /\ I64.in_range (-11) /\
  5 <> I64.min_signed /\ -11 <> I64.min_signed /\
  old2d (- 5) (-11) 10 = old2d 5 (-11) 10 /\
  old2d 5 (- -11) 10 = old2d 5 (-11) 10 /\
  new2d (- 5) (-11) 10 = new2d 5 (-11) 10 /\
  new2d 5 (- -11) 10 = new2d 5 (-11) 10.
Proof.
  assert (I64.in_range 5) as Hs by i64_range.
  assert (I64.in_range (-11)) as Hd by i64_range.
  assert (5 <> I64.min_signed) as Hsne by (unfold I64.min_signed; lia).
  assert (-11 <> I64.min_signed) as Hdne by (unfold I64.min_signed; lia).
  split; [exact Hs |]. split; [exact Hd |].
  split; [exact Hsne |]. split; [exact Hdne |].
  exact (sign_of_id_ignored 5 (-11) 10 Hs Hd Hsne Hdne).
Defined.

(** ** The Scala proposal and its Python transcription *)

Lemma int_wrap_id z : - 2 ^ 31 <= z <= 2 ^ 31 - 1 -> JVM.int_wrap z = z.
Proof. intros Hz. unfold JVM.int_wrap. rewrite Z.mod_small; lia. Qed.

Lemma mix_nonneg v :
  I64.in_range v -> v <> I64.min_signed -> 0 <= mix v <= I64.max_signed.
Proof.
  intros Hv Hne. pose proof (wrap_in_range (v * mixingPrime)) as Hw.
  assert (I64.mul v mixingPrime <> I64.min_signed) as Hw'
    by (intros Heq; by apply Hne, mul_mixingPrime_min).
  unfold mix, I64.abs. fold (I64.mul v mixingPrime) in Hw.
  set (w := I64.mul v mixingPrime) in *.
  rewrite wrap_id by i64_range. i64_range.
Qed.

Lemma jvm_ceilSqrt n : 0 <= n < 2 ^ 52 -> JVM.ceilSqrt n = ceil_sqrt n.
Proof.
  intros Hn. unfold JVM.ceilSqrt.
  destruct (Z.ltb_spec n 0); [lia |]. by apply ceil_sqrt_double_exact.
Qed.

Example getPartition_negative_index :
  getPartition I64.min_signed 7 10 = Ok (-5) /\
  new2d I64.min_signed 7 10 = Ok 1 /\
  getPartition I64.min_signed 0 9 = Ok (-6) /\
  old2d I64.min_signed 0 9 = Ok 3.
Proof. repeat split. Qed.

(** X17. The Python functions transcribe the Scala proposal faithfully away
    from the minimum vertex ID: for 64-bit [src] and [dst] other than the
    minimum value, and [numParts >= 1] with
    [numParts + ceil(sqrt(numParts)) <= 2^31 - 1] (so that the 32-bit
    geometry does not wrap), the Scala [getPartition], with its truncating
    [/] and [%], returns what [old2d] returns when [numParts] is a perfect
    square and what [new2d] returns otherwise. *)
Theorem getPartition_agrees src dst numParts :
  1 <= numParts -> numParts + ceil_sqrt numParts <= 2 ^ 31 - 1 ->
  I64.in_range src -> I64.in_range dst ->
  src <> I64.min_signed -> dst <> I64.min_signed ->
  getPartition src dst numParts =
    if numParts =? ceil_sqrt numParts * ceil_sqrt numParts
    then old2d src dst numParts
    else new2d src dst numParts.
Proof.
  intros Hn1 Hn2 Hs Hd Hsne Hdne.
  destruct (ceil_sqrt_spec numParts Hn1) as (Hc1 & Hlo & Hhi).
  assert (valid_numParts numParts) as Hn
    by (unfold valid_numParts, maxNumParts; lia).
  pose proof (mix_nonneg src Hs Hsne) as Hms.
  pose proof (mix_nonneg dst Hd Hdne) as Hmd.
  unfold I64.max_signed in Hms, Hmd.
  unfold getPartition. rewrite jvm_ceilSqrt by lia.
  set (c := ceil_sqrt numParts) in *.
  assert (c <= 46341) as Hc by nia.
  assert ((numParts =? JVM.imul c c) = (numParts =? c * c)) as ->.
  { unfold JVM.imul.
    destruct (Z.le_gt_cases (c * c) (2 ^ 31 - 1)).
    - by rewrite int_wrap_id by nia.
    - assert (JVM.int_wrap (c * c) = c * c - 2 ^ 32) as ->.
      { unfold JVM.int_wrap.
        replace (c * c + 2 ^ 31) with (c * c - 2 ^ 31 + 1 * 2 ^ 32) by lia.
        rewrite Z.mod_add by lia. rewrite Z.mod_small by nia. lia. }
      destruct (Z.eqb_spec numParts (c * c - 2 ^ 32)),
        (Z.eqb_spec numParts (c * c)); (reflexivity || nia). }
  destruct (Z.eqb_spec numParts (c * c)) as [Hsq | Hnsq].
  - (* the old method *)
    rewrite old2d_eq by done. unfold oldCol, oldRow. fold c.
    pose proof (Z.mod_pos_bound (mix src) c ltac:(lia)) as Hcol.
    pose proof (Z.mod_pos_bound (mix dst) c ltac:(lia)) as Hrow.
    unfold JVM.lrem, JVM.irem, JVM.toInt, JVM.iadd, JVM.imul.
    destruct (Z.eqb_spec c 0); [lia |]. cbn [bind].
    destruct (Z.eqb_spec numParts 0); [lia |].
    rewrite (Z.rem_mod_nonneg (mix src) c), (Z.rem_mod_nonneg (mix dst) c)
      by lia.
    set (col := mix src mod c) in *. set (row := mix dst mod c) in *.
    assert (0 <= col * c + row < numParts) by nia.
    rewrite (int_wrap_id col), (int_wrap_id row) by lia.
    rewrite (int_wrap_id (col * c)) by nia.
    rewrite (int_wrap_id (col * c + row)) by lia.
    rewrite Z.rem_mod_nonneg by lia. reflexivity.
  - (* the new method *)
    rewrite new2d_eq by done.
    destruct (gridRows_bounds numParts Hn) as ([Hr1 Hr2] & Hrc1 & Hrc2).
    pose proof (gridLastColRows_bounds numParts Hn) as Hl.
    pose proof (newCol_bounds src numParts Hn) as Hcol.
    pose proof (newRow_bounds dst numParts (newCol src numParts) Hn) as Hrow.
    pose proof (grid_index_bounds numParts _ _ Hn Hcol Hrow) as Hidx.
    pose proof (colHeight_bounds numParts (newCol src numParts) Hn) as Hh.
    pose proof (Z.mod_pos_bound (mix src) numParts ltac:(lia)) as Hm.
    unfold gridCols in *. fold c in Hr2, Hrc1, Hrc2, Hcol.
    assert (JVM.idiv (JVM.isub (JVM.iadd numParts c) 1) c =
              Ok (gridRows numParts)) as ->.
    { unfold JVM.idiv, JVM.isub, JVM.iadd.
      destruct (Z.eqb_spec c 0); [lia |].
      rewrite (int_wrap_id (numParts + c)) by lia.
      rewrite (int_wrap_id (numParts + c - 1)) by lia.
      rewrite Z.quot_div_nonneg by lia.
      unfold gridRows, gridCols. fold c.
      rewrite int_wrap_id; [reflexivity |].
      fold c in Hr2. unfold gridRows, gridCols in Hr1, Hr2. fold c in Hr1, Hr2.
      lia. }
    cbn [bind].
    assert (JVM.isub numParts (JVM.imul (gridRows numParts) (JVM.isub c 1)) =
              gridLastColRows numParts) as ->.
    { assert (gridLastColRows numParts =
                numParts - gridRows numParts * (c - 1)) as HL by reflexivity.
      rewrite HL in *. unfold JVM.isub, JVM.imul.
      set (rows := gridRows numParts) in *.
      assert (0 <= rows * (c - 1) <= numParts) by nia.
      rewrite (int_wrap_id (c - 1)) by lia.
      rewrite (int_wrap_id (rows * (c - 1))) by lia.
      apply int_wrap_id. lia. }
    unfold JVM.lrem at 1. destruct (Z.eqb_spec numParts 0); [lia |].
    cbn [bind]. rewrite Z.rem_mod_nonneg by lia.
    unfold JVM.ldiv. destruct (Z.eqb_spec (gridRows numParts) 0); [lia |].
    cbn [bind]. rewrite Z.quot_div_nonneg by lia.
    fold (newCol src numParts).
    rewrite (wrap_id (newCol src numParts)) by i64_range.
    unfold JVM.toInt at 1. rewrite (int_wrap_id (newCol src numParts)) by lia.
    unfold JVM.isub. rewrite (int_wrap_id (c - 1)) by lia.
    change (if newCol src numParts <? c - 1
            then gridRows numParts else gridLastColRows numParts)
      with (colHeight numParts (newCol src numParts)).
    unfold JVM.lrem.
    destruct (Z.eqb_spec (colHeight numParts (newCol src numParts)) 0);
      [lia |].
    cbn [bind]. rewrite Z.rem_mod_nonneg by lia.
    fold (newRow dst numParts (newCol src numParts)).
    unfold JVM.toInt, JVM.iadd, JVM.imul.
    assert (0 <= newCol src numParts * gridRows numParts <= numParts) by nia.
    rewrite (int_wrap_id (newRow dst numParts (newCol src numParts))) by lia.
    rewrite (int_wrap_id (newCol src numParts)) by lia.
    rewrite (int_wrap_id (newCol src numParts * gridRows numParts)) by lia.
    rewrite int_wrap_id by lia. reflexivity.
Qed.

Lemma getPartition_agrees_witness :
  1 <= 10 /\ 10 + ceil_sqrt 10 <= 2 ^ 31 - 1 /\
  I64.in_range 12345 /\ I64.in_range (-678) /\
  12345 <> I64.min_signed /\ -678 <> I64.min_signed /\
  getPartition 12345 (-678) 10 =
    if 10 =? ceil_sqrt 10 * ceil_sqrt 10
    then old2d 12345 (-678) 10
    else new2d 12345 (-678) 10.
Proof.
  assert (1 <= 10) as Hn1 by lia.
  assert (10 + ceil_sqrt 10 <= 2 ^ 31 - 1) as Hn2
    by (change (ceil_sqrt 10) with 4; lia).
  assert (I64.in_range 12345) as Hs by i64_range.
  assert (I64.in_range (-678)) as Hd by i64_range.
  assert (12345 <> I64.min_signed) as Hsne by (unfold I64.min_signed; lia).
  assert (-678 <> I64.min_signed) as Hdne by (unfold I64.min_signed; lia).
  split; [exact Hn1 |]. split; [exact Hn2 |]. split; [exact Hs |].
  split; [exact Hd |]. split; [exact Hsne |]. split; [exact Hdne |].
  exact (getPartition_agrees 12345 (-678) 10 Hn1 Hn2 Hs Hd Hsne Hdne).
Defined.

(** ** The largest partition counts *)

(** X18. The bound [2^63 - 3037000500] of the range invariant is exact: for
    every larger [numParts] that fits in 64 bits the code's [rows] is
    negative, and [new2d] sends the edge from vertex 0 to vertex
    404865266501297645 (whose scrambled ID is 1) to the negative index
    [rows + 1]. *)
Theorem new2d_out_of_range_beyond numParts :
  2 ^ 63 - maxCols < numParts <= I64.max_signed ->
  exists rows p,
    new2d_rows numParts = Ok rows /\ rows < 0 /\
    new2d 0 mixingPrimeInv numParts = Ok p /\ p = rows + 1 /\ p < 0.
Proof.
  intros Hn.
  destruct (new2d_negative_beyond numParts Hn) as (rows & Hrows & Hneg & Heq).
  exists rows, (rows + 1). split; [exact Hrows |]. split; [lia |].
  split; [exact Heq |]. split; [reflexivity | lia].
Qed.

Lemma new2d_out_of_range_beyond_witness :
  2 ^ 63 - maxCols < 2 ^ 63 - maxCols + 1 <= I64.max_signed /\
  exists rows p,
    new2d_rows (2 ^ 63 - maxCols + 1) = Ok rows /\ rows < 0 /\
    new2d 0 mixingPrimeInv (2 ^ 63 - maxCols + 1) = Ok p /\
    p = rows + 1 /\ p < 0.
Proof.
  assert (2 ^ 63 - maxCols < 2 ^ 63 - maxCols + 1 <= I64.max_signed) as Hn
    by (unfold maxCols, I64.max_signed; lia).
  split; [exact Hn |].
  exact (new2d_out_of_range_beyond (2 ^ 63 - maxCols + 1) Hn).
Defined.
